(** * TarFileExplorer (tfe.py): the path index and the navigation controller

    A shallow embedding of [src/tfe.py].  Paths are strings of 8-bit
    characters, compared by code and put in lower case letter by letter.
    The archive, the temporary directory, the viewer, the window and the
    canvas are collaborators: their calls are recorded as events and
    succeed, except [getmember], which raises [KeyError] on a name that
    the archive does not have once the slashes at its end are taken off.  The selection of the list box is an input
    of each action. *)

From Stdlib Require Import String Ascii ZArith List Lia.
From stdpp Require Import base option list gmap strings sorting.

Local Open Scope string_scope.
Local Open Scope nat_scope.
Local Open Scope list_scope.

(** ** The string operations of Python that the program uses *)

Module Py.

(** [s.split(sep)] for a separator of one character: never the empty list. *)
Fixpoint split (sep : ascii) (s : string) : list string :=
  match s with
  | EmptyString => [EmptyString]
  | String c r =>
      if decide (c = sep) then EmptyString :: split sep r
      else match split sep r with
           | [] => [String c EmptyString]
           | x :: xs => String c x :: xs
           end
  end.

(** [sep.join(l)]. *)
Fixpoint join (sep : ascii) (l : list string) : string :=
  match l with
  | [] => EmptyString
  | x :: xs =>
      match xs with
      | [] => x
      | _ :: _ => x +:+ String sep (join sep xs)
      end
  end.

(** [l[:-1]]: every element but the last. *)
Definition but_last {A} (l : list A) : list A := removelast l.

(** [l[-1]] on a list of strings (the lists here are never empty). *)
Definition last_item (l : list string) : string := List.last l EmptyString.

(** [s[-n:]]: the last [n] characters, the whole string when it is shorter. *)
Definition suffix (n : nat) (s : string) : string :=
  substring (String.length s - n) n s.

(** [s.rstrip(c)] for one character [c]: [s] without the [c]s at its
    end. *)
Fixpoint rstrip (c : ascii) (s : string) : string :=
  match s with
  | EmptyString => EmptyString
  | String a r =>
      match rstrip c r with
      | EmptyString => if decide (a = c) then EmptyString else String a EmptyString
      | String _ _ as r' => String a r'
      end
  end.

(** [c.lower()] on one character: only [A]..[Z] change. *)
Definition lower_ascii (c : ascii) : ascii :=
  let n := nat_of_ascii c in
  if (65 <=? n)%nat && (n <=? 90)%nat then ascii_of_nat (n + 32) else c.

(** [s.lower()]. *)
Fixpoint lower (s : string) : string :=
  match s with
  | EmptyString => EmptyString
  | String c r => String (lower_ascii c) (lower r)
  end.

End Py.

(** ** Module constants *)

(** [DELIMITER = os.path.sep], the separator of a POSIX system. *)
Definition DELIMITER : ascii := "/"%char.

(** The text of the synthetic parent entry of a listing. *)
Definition PARENT_MARKER : string := "..".

(** [DELIMITER.join(p.split(DELIMITER)[:-1])], the expression that
    [__init__], [dbl_click_listbox] and [extract_selection] all use. *)
Definition parent (p : string) : string :=
  Py.join DELIMITER (Py.but_last (Py.split DELIMITER p)).

(** [p.split(DELIMITER)[-1]]. *)
Definition basename (p : string) : string :=
  Py.last_item (Py.split DELIMITER p).

(** ** The archive collaborator *)

(** The members of the opened archive in archive order: the name and the
    answer of [isfile()] of each. *)
Record TarFile := { members : list (string * bool) }.

(** [tar_root.getnames()]. *)
Definition getnames (t : TarFile) : list string := (members t).*1.

(** [tar_root.getmember(name).isfile()]: [tarfile] looks for
    [name.rstrip('/')], takes the last member of that name, and raises
    [KeyError] (here [None]) when there is none. *)
Definition getmember_isfile (t : TarFile) (name : string) : option bool :=
  snd <$> List.find (λ m, bool_decide (m.1 = Py.rstrip "/" name))
                    (rev (members t)).

(** ** The path index, a [defaultdict(lambda: [])] *)

(** What [tree_dict[k]] evaluates to. *)
Definition children (d : gmap string (list string)) (k : string) : list string :=
  default [] (d !! k).

(** [tree_dict[k]] as a statement: a missing key is inserted with the
    value of the factory, the empty list. *)
Definition getitem (d : gmap string (list string)) (k : string)
  : list string * gmap string (list string) :=
  match d !! k with
  | Some l => (l, d)
  | None => ([], <[k := []]> d)
  end.

(** [tree_dict[parent].append(path_file)]. *)
Definition append_item (d : gmap string (list string)) (par path_file : string)
  : gmap string (list string) :=
  <[par := children d par ++ [path_file]]> d.

(** The order of Python on pairs of strings: the first components by code
    point, the second ones on a tie. *)
Definition tuple_leb (a b : string * string) : bool :=
  match String.compare a.1 b.1 with
  | Lt => true
  | Eq => String.leb a.2 b.2
  | Gt => false
  end.

Definition tuple_le (a b : string * string) : Prop := tuple_leb a b = true.

#[global] Instance tuple_le_dec : RelDecision tuple_le.
Proof. intros a b. unfold tuple_le. apply _. Defined.

(** [sorted(...)] on such pairs.  The order is total and two pairs that
    compare equal are the same pair, so the sorted list is the only sorted
    rearrangement ([sorted_unique] below) and is what Python computes. *)
Definition sorted (l : list (string * string)) : list (string * string) :=
  merge_sort tuple_le l.

Inductive exn := ValueError | KeyError.

(** The unpacking [a, b = zip( *l )]: with no pair at all, [zip()] yields
    nothing and the assignment to two targets raises [ValueError]. *)
Definition unzip2 (l : list (string * string))
  : exn + (list string * list string) :=
  match l with
  | [] => inl ValueError
  | _ :: _ => inr (l.*1, l.*2)
  end.

(** The loop of [__init__] that fills [tree_dict]. *)
Definition fill_tree_dict (pairs : list (string * string))
  : gmap string (list string) :=
  fold_left (λ d pp, append_item d pp.1 pp.2) pairs ∅.

(** Lines 51 to 57 of [__init__]: the index of the names of the archive. *)
Definition build_tree_dict (names : list string)
  : exn + gmap string (list string) :=
  let tar_files_pathes := names in
  let tar_parents := parent <$> tar_files_pathes in
  match unzip2 (sorted (zip tar_files_pathes tar_parents)) with
  | inl e => inl e
  | inr (tar_files_pathes, tar_parents) =>
      inr (fill_tree_dict (zip tar_parents tar_files_pathes))
  end.

(** ** The collaborators' calls, in the order the program makes them *)

Inductive event :=
| TarExtract (member : string)
| TarExtractfile (member : string)
| OpenWb (filepath : string)
| WriteFile (filepath member : string)
| SystemViewer (filepath : string)
| AskOkCancel
| TmpdirCleanup
| WindowDestroy
| CvConfig (width height : Z)
| CvDeleteAll
| CvCreateText (x y : Z) (text : string)
| ImageThumbnail (member : string) (max_width max_height : Z)
| CvCreateImage (member : string)
| CvUpdate
| CallbackError (e : exn).

#[global] Instance exn_eq_dec : EqDecision exn.
Proof. solve_decision. Defined.

#[global] Instance event_eq_dec : EqDecision event.
Proof. solve_decision. Defined.

(** ** The explorer object *)

Record explorer := {
  tar_root : TarFile;
  tree_dict : gmap string (list string);
  tmpdir_name : string;
  tmpdir_alive : bool;
  current_path : string;
  opened_at_least_one_tmp : bool;
  listbox : list string;
  window_alive : bool
}.

Definition set_tree_dict (d : gmap string (list string)) (st : explorer) : explorer :=
  {| tar_root := tar_root st; tree_dict := d; tmpdir_name := tmpdir_name st;
     tmpdir_alive := tmpdir_alive st; current_path := current_path st;
     opened_at_least_one_tmp := opened_at_least_one_tmp st;
     listbox := listbox st; window_alive := window_alive st |}.

Definition set_current_path (p : string) (st : explorer) : explorer :=
  {| tar_root := tar_root st; tree_dict := tree_dict st; tmpdir_name := tmpdir_name st;
     tmpdir_alive := tmpdir_alive st; current_path := p;
     opened_at_least_one_tmp := opened_at_least_one_tmp st;
     listbox := listbox st; window_alive := window_alive st |}.

Definition set_opened_at_least_one_tmp (b : bool) (st : explorer) : explorer :=
  {| tar_root := tar_root st; tree_dict := tree_dict st; tmpdir_name := tmpdir_name st;
     tmpdir_alive := tmpdir_alive st; current_path := current_path st;
     opened_at_least_one_tmp := b;
     listbox := listbox st; window_alive := window_alive st |}.

(** [tmpdir.cleanup()] followed by [window.destroy()]. *)
Definition torn_down (st : explorer) : explorer :=
  {| tar_root := tar_root st; tree_dict := tree_dict st; tmpdir_name := tmpdir_name st;
     tmpdir_alive := false; current_path := current_path st;
     opened_at_least_one_tmp := opened_at_least_one_tmp st;
     listbox := listbox st; window_alive := false |}.

(** [populate(L)]: the list box shows exactly the items of [L]. *)
Definition populate (L : list string) (st : explorer) : explorer :=
  {| tar_root := tar_root st; tree_dict := tree_dict st; tmpdir_name := tmpdir_name st;
     tmpdir_alive := tmpdir_alive st; current_path := current_path st;
     opened_at_least_one_tmp := opened_at_least_one_tmp st;
     listbox := L; window_alive := window_alive st |}.

(** [__init__]: [tmp] is the name of the temporary directory that
    [tempfile.TemporaryDirectory()] creates. *)
Definition init (tar : TarFile) (tmp : string) : exn + explorer :=
  match build_tree_dict (getnames tar) with
  | inl e => inl e
  | inr d =>
      let '(root, d) := getitem d "" in
      inr {| tar_root := tar; tree_dict := d; tmpdir_name := tmp;
             tmpdir_alive := true; current_path := "";
             opened_at_least_one_tmp := false;
             listbox := root; window_alive := true |}
  end.

(** Lines 119 to 123: go to the directory [selection] and list it. *)
Definition enter_directory (selection : string) (st : explorer) : explorer :=
  let st := set_current_path selection st in
  let '(L, d) := getitem (tree_dict st) (current_path st) in
  populate ((if decide (current_path st = "") then [] else [PARENT_MARKER]) ++ L)
           (set_tree_dict d st).

(** [dbl_click_listbox]: [selection] is what [listbox.selection_get()]
    returns. *)
Definition dbl_click_listbox (selection : string) (st : explorer)
  : explorer * list event :=
  if decide (selection = PARENT_MARKER) then
    (enter_directory (parent (current_path st)) st, [])
  else
    match getmember_isfile (tar_root st) selection with
    | None => (st, [CallbackError KeyError])
    | Some true =>
        let filepath := tmpdir_name st +:+ String DELIMITER (basename selection) in
        (set_opened_at_least_one_tmp true st,
         [OpenWb filepath; TarExtractfile selection;
          WriteFile filepath selection; SystemViewer filepath])
    | Some false => (enter_directory selection st, [])
    end.

(** The return points of [click_listbox], and the exception that
    [getmember] raises on a name that is not in the archive. *)
Inductive preview :=
| PreviewKeyError
| NothingTooSmall
| ParentNoOp
| PlaceholderDirectory
| PlaceholderNonImageFile
| ImagePreview.

#[global] Instance preview_eq_dec : EqDecision preview.
Proof. solve_decision. Defined.

Definition HINT : string := "Double Click HERE to UnTar…".

(** The test of line 151 on the name of the selection. *)
Definition recognised_image (selection : string) : bool :=
  bool_decide (Py.lower (Py.suffix 4 selection) ∈ [".png"; ".tif"; ".jpg"])
  || bool_decide (Py.lower (Py.suffix 5 selection) ∈ [".jpeg"; ".tiff"; ".webp"]).

(** [click_listbox]: the three widths and heights are what [winfo_width]
    and [winfo_height] return for the window and the list box. *)
Definition click_listbox (selection : string)
    (window_width listbox_width window_height : Z) (st : explorer)
  : preview * list event :=
  let canvas_width := (window_width - listbox_width - 20)%Z in
  let canvas_height := (window_height - 20)%Z in
  let cleared := [CvConfig (canvas_width + 20) (canvas_height + 20); CvDeleteAll] in
  if (Z.min canvas_height canvas_width <=? 50)%Z then (NothingTooSmall, cleared)
  else if decide (selection = PARENT_MARKER) then (ParentNoOp, cleared)
  else
    match getmember_isfile (tar_root st) selection with
    | None => (PreviewKeyError, cleared ++ [CallbackError KeyError])
    | Some false =>
        (PlaceholderDirectory,
         cleared ++ [CvCreateText (canvas_width / 2) 20 HINT])
    | Some true =>
        if negb (recognised_image selection) then
          (PlaceholderNonImageFile,
           cleared ++ [CvCreateText (canvas_width / 2) 20 HINT])
        else
          (ImagePreview,
           cleared ++ [TarExtractfile selection;
                       ImageThumbnail selection canvas_width canvas_height;
                       CvCreateImage selection; CvUpdate])
    end.

(** The [while] loop of [extract_selection]; [fuel] bounds the number of
    times its test is evaluated, [None] is a loop that needs more. *)
Fixpoint extract_loop (fuel : nat) (d : gmap string (list string))
    (recursive_extract : list string)
  : option (gmap string (list string) * list event) :=
  match fuel with
  | O => None
  | S fuel =>
      match recursive_extract with
      | [] => Some (d, [])
      | s :: recursive_extract =>
          let '(kids, d) := getitem d s in
          match extract_loop fuel d (recursive_extract ++ kids) with
          | None => None
          | Some (d, evs) => Some (d, TarExtract s :: evs)
          end
      end
  end.

(** [extract_selection]. *)
Definition extract_selection (fuel : nat) (selection : string) (st : explorer)
  : option (explorer * list event) :=
  if decide (selection = PARENT_MARKER) then Some (st, [])
  else
    match getmember_isfile (tar_root st) selection with
    | None => Some (st, [CallbackError KeyError])
    | Some true =>
        Some (st, [TarExtract selection; SystemViewer (parent selection)])
    | Some false =>
        match extract_loop fuel (tree_dict st) [selection] with
        | None => None
        | Some (d, evs) =>
            Some (set_tree_dict d st, evs ++ [SystemViewer selection])
        end
    end.

(** [on_close]: [answer] is what the user answers if [askokcancel] is
    shown; the [or] does not show it when no temporary file was opened. *)
Definition on_close (answer : bool) (st : explorer) : explorer * list event :=
  if negb (opened_at_least_one_tmp st) then
    (torn_down st, [TmpdirCleanup; WindowDestroy])
  else if answer then
    (torn_down st, [AskOkCancel; TmpdirCleanup; WindowDestroy])
  else (st, [AskOkCancel]).

(** ** Sessions: the event loop dispatches one user action at a time *)

Inductive action :=
| DblClick (selection : string)
| Click (selection : string) (window_width listbox_width window_height : Z)
| ExtractSelection (selection : string)
| Close (answer : bool).

Definition step (fuel : nat) (a : action) (st : explorer)
  : option (explorer * list event) :=
  match a with
  | DblClick selection => Some (dbl_click_listbox selection st)
  | Click selection ww lw wh => Some (st, (click_listbox selection ww lw wh st).2)
  | ExtractSelection selection => extract_selection fuel selection st
  | Close answer => Some (on_close answer st)
  end.

(** [mainloop]: actions are handled until the window is destroyed. *)
Fixpoint run (fuel : nat) (acts : list action) (st : explorer)
  : option (explorer * list event) :=
  match acts with
  | [] => Some (st, [])
  | a :: acts =>
      if window_alive st then
        match step fuel a st with
        | None => None
        | Some (st, evs) =>
            match run fuel acts st with
            | None => None
            | Some (st, evs') => Some (st, evs ++ evs')
            end
        end
      else Some (st, [])
  end.

(** ** Notions used to state the properties *)

(** The segments of a path are what [split] makes of it. *)
Definition segments (p : string) : list string := Py.split DELIMITER p.

(** The names in the order in which [__init__] appends them. *)
Definition sorted_names (names : list string) : list string :=
  (sorted (zip names (parent <$> names))).*1.

(** The children that the index built from [names] gives to [k]. *)
Definition index_children (names : list string) (k : string) : list string :=
  filter (λ p, parent p = k) (sorted_names names).

(** [d] answers every lookup as the function [ch] does. *)
Definition agrees (d : gmap string (list string)) (ch : string → list string) : Prop :=
  ∀ k, children d k = ch k.

(** The paths at distance [n] below the paths of [Q]. *)
Definition level (ch : string → list string) (n : nat) (Q : list string) : list string :=
  Nat.iter n (λ L, L ≫= ch) Q.

(** The first [n] levels below [Q], one after the other. *)
Fixpoint levels (ch : string → list string) (n : nat) (Q : list string) : list string :=
  match n with
  | O => []
  | S n => Q ++ levels ch n (Q ≫= ch)
  end.

(** [p] is [s] or is reached from [s] through members of the archive. *)
Inductive descendant (names : list string) (s : string) : string → Prop :=
| descendant_self : descendant names s s
| descendant_child p :
    p ∈ names → descendant names s (parent p) → descendant names s p.

(** A quick-view file was opened by one of the calls of [evs]. *)
Definition quick_viewed (evs : list event) : bool :=
  existsb (λ e, match e with OpenWb _ => true | _ => false end) evs.

(** The inputs of the choice that [click_listbox] makes. *)
Definition preview_inputs (selection : string)
    (window_width listbox_width window_height : Z) (st : explorer)
  : bool * bool * option bool * string * string :=
  ((Z.min (window_height - 20) (window_width - listbox_width - 20) <=? 50)%Z,
   bool_decide (selection = PARENT_MARKER),
   getmember_isfile (tar_root st) selection,
   Py.lower (Py.suffix 4 selection),
   Py.lower (Py.suffix 5 selection)).

(** The list box shows the current directory: the parent entry unless the
    directory is the root, then the children that [ch] gives it. *)
Definition listing_ok (ch : string → list string) (st : explorer) : Prop :=
  listbox st
  = (if decide (current_path st = "") then [] else [PARENT_MARKER])
    ++ ch (current_path st).

(** What holds of the explorer of the archive [tar] during a session. *)
Definition session_inv (tar : TarFile) (st : explorer) : Prop :=
  tar_root st = tar ∧
  agrees (tree_dict st) (index_children (getnames tar)) ∧
  (window_alive st = true → tmpdir_alive st = true) ∧
  listing_ok (index_children (getnames tar)) st.

(** The archive of the scenario of the documentation, with its directory. *)
Definition sample_tar : TarFile :=
  {| members := [("d.txt", true); ("a/c.txt", true); ("a", false); ("a/b.png", true)] |}.

(** An archive whose image has its extension in capitals. *)
Definition capitals_tar : TarFile :=
  {| members := [("x", false); ("x/B.PNG", true)] |}.

(** An archive that holds two levels of directories. *)
Definition deep_tar : TarFile :=
  {| members := [("a", false); ("a/b", false); ("a/b/x", false);
                 ("a/b/x/deep", true); ("a/c", false); ("a/c/z", true)] |}.

(** An archive to which the file [a/b] was appended a second time. *)
Definition appended_tar : TarFile :=
  {| members := [("a", false); ("a/b", true); ("a/b", true)] |}.

(** Entering the parent entry: [dbl_click_listbox] on [..]. *)
Definition go_up (st : explorer) : explorer :=
  (dbl_click_listbox PARENT_MARKER st).1.

(** The endings that line 151 looks for. *)
Definition IMAGE_EXTENSIONS : list string :=
  [".png"; ".tif"; ".jpg"; ".jpeg"; ".tiff"; ".webp"].

(** The calls that write to the disk, open the viewer, ask the user or end
    the session. *)
Definition outward (e : event) : bool :=
  match e with
  | TarExtract _ | OpenWb _ | WriteFile _ _ | SystemViewer _
  | AskOkCancel | TmpdirCleanup | WindowDestroy => true
  | _ => false
  end.

(** Membership in a list that is given in full. *)
Ltac in_names :=
  vm_compute; repeat first [apply list_elem_of_here | apply list_elem_of_further].

(** ** Strings *)

Section strings.
Variable sep : ascii.

Lemma split_not_nil s : Py.split sep s ≠ [].
Proof.
  destruct s as [|c r]; simpl; [done|].
  destruct (decide (c = sep)); [done|]. by destruct (Py.split sep r).
Qed.

Lemma join_split s : Py.join sep (Py.split sep s) = s.
Proof.
  induction s as [|c r IH]; [done|]. simpl.
  destruct (decide (c = sep)) as [->|Hc].
  - pose proof (split_not_nil r) as Hne.
    destruct (Py.split sep r) as [|x xs] eqn:E; [done|].
    simpl in *. by rewrite IH.
  - destruct (Py.split sep r) as [|x xs] eqn:E; [by destruct (split_not_nil r)|].
    simpl in *. destruct xs; simpl in *; by rewrite <- IH.
Qed.

Lemma string_app_cons a (s1 s2 : string) :
  String a s1 +:+ s2 = String a (s1 +:+ s2).
Proof. reflexivity. Qed.

Lemma string_length_app (s1 s2 : string) :
  String.length (s1 +:+ s2) = String.length s1 + String.length s2.
Proof.
  induction s1 as [|a s1 IH]; [done|].
  rewrite string_app_cons. simpl. by rewrite IH.
Qed.

Lemma string_app_assoc (s1 s2 s3 : string) :
  s1 +:+ (s2 +:+ s3) = (s1 +:+ s2) +:+ s3.
Proof.
  induction s1 as [|a s1 IH]; [done|].
  rewrite !string_app_cons. by rewrite IH.
Qed.

Lemma join_snoc l x :
  l ≠ [] → Py.join sep (l ++ [x]) = Py.join sep l +:+ String sep x.
Proof.
  induction l as [|y l IH]; [done|]. intros _.
  destruct l as [|z l]; [done|].
  change (Py.join sep ((y :: z :: l) ++ [x]))
    with (y +:+ String sep (Py.join sep ((z :: l) ++ [x]))).
  rewrite IH by done.
  change (Py.join sep (y :: z :: l)) with (y +:+ String sep (Py.join sep (z :: l))).
  by rewrite <- string_app_assoc, string_app_cons.
Qed.

Lemma split_snoc s :
  Py.split sep s = Py.but_last (Py.split sep s) ++ [Py.last_item (Py.split sep s)].
Proof. apply app_removelast_last, split_not_nil. Qed.

Lemma split_no_sep s :
  sep ∉ list_ascii_of_string s → Py.split sep s = [s].
Proof.
  induction s as [|c r IH]; [done|]. simpl. intros Hn.
  destruct (decide (c = sep)) as [->|Hc].
  - destruct Hn. apply list_elem_of_here.
  - rewrite IH; [done|]. intros ?. apply Hn. by apply list_elem_of_further.
Qed.

Lemma split_segments_no_sep s :
  Forall (λ x, sep ∉ list_ascii_of_string x) (Py.split sep s).
Proof.
  induction s as [|c r IH]; simpl.
  - repeat constructor. by intros ?%elem_of_nil.
  - destruct (decide (c = sep)) as [->|Hc].
    + constructor; [|done]. by intros ?%elem_of_nil.
    + destruct (Py.split sep r) as [|x xs]; simpl.
      * repeat constructor. intros [?|?%elem_of_nil]%elem_of_cons; done.
      * inversion IH; subst. constructor; [|done].
        simpl. intros [?|?]%elem_of_cons; done.
Qed.

End strings.

(** ** Parent paths *)

Lemma parent_length p :
  p ≠ "" → String.length (parent p) < String.length p.
Proof.
  intros Hp. unfold parent.
  rewrite <- (join_split DELIMITER p) at 2.
  rewrite (split_snoc DELIMITER p) at 2.
  destruct (Py.but_last (Py.split DELIMITER p)) as [|y l] eqn:E.
  - simpl. pose proof (join_split DELIMITER p) as Hj.
    rewrite (split_snoc DELIMITER p), E in Hj. simpl in Hj. rewrite Hj.
    destruct p; [done|simpl; lia].
  - rewrite join_snoc by done. rewrite string_length_app. simpl. lia.
Qed.

Lemma parent_root_iff p :
  parent p = "" ↔ (∃ x, segments p = [x]) ∨ (∃ x, segments p = [""; x]).
Proof.
  unfold parent, segments.
  pose proof (split_not_nil DELIMITER p) as Hne.
  destruct (Py.split DELIMITER p) as [|x [|y [|z l]]]; [done|..].
  - simpl. split; eauto.
  - simpl. split.
    + intros ->. eauto.
    + intros [[? [=]]|[? [= -> _]]]. done.
  - split.
    + change (Py.but_last (x :: y :: z :: l)) with (x :: y :: Py.but_last (z :: l)).
      change (Py.join DELIMITER (x :: y :: Py.but_last (z :: l)))
        with (x +:+ String DELIMITER (Py.join DELIMITER (y :: Py.but_last (z :: l)))).
      intros Hj. apply (f_equal String.length) in Hj.
      rewrite string_length_app in Hj. simpl in Hj. lia.
    + intros [[? [=]]|[? [=]]].
Qed.

Lemma parent_no_sep p :
  DELIMITER ∉ list_ascii_of_string p → parent p = "".
Proof. intros Hp. unfold parent. by rewrite split_no_sep. Qed.

Lemma basename_no_sep p : DELIMITER ∉ list_ascii_of_string (basename p).
Proof.
  unfold basename.
  pose proof (split_segments_no_sep DELIMITER p) as Hall.
  rewrite (split_snoc DELIMITER p), Forall_app, Forall_singleton in Hall.
  apply Hall.
Qed.

(** ** Lookups in the [defaultdict] *)

Lemma getitem_fst d k : (getitem d k).1 = children d k.
Proof. unfold getitem, children. by destruct (d !! k). Qed.

Lemma getitem_children d k j :
  children (getitem d k).2 j = children d j.
Proof.
  unfold getitem, children. destruct (d !! k) eqn:E; [done|]. simpl.
  destruct (decide (k = j)) as [->|Hne].
  - by rewrite lookup_insert_eq, E.
  - by rewrite lookup_insert_ne.
Qed.

Lemma getitem_keeps d k j l :
  d !! j = Some l → (getitem d k).2 !! j = Some l.
Proof.
  unfold getitem. intros Hj. destruct (d !! k) eqn:E; [done|]. simpl.
  rewrite lookup_insert_ne; [done|]. congruence.
Qed.

Lemma getitem_agrees d k ch :
  agrees d ch → getitem d k = (ch k, (getitem d k).2) ∧ agrees (getitem d k).2 ch.
Proof.
  intros Ha. split.
  - rewrite <- Ha, <- getitem_fst. by destruct (getitem d k).
  - intros j. by rewrite getitem_children.
Qed.

(** ** The index that [__init__] builds *)

Lemma children_append_item d par path_file k :
  children (append_item d par path_file) k =
  children d k ++ (if decide (par = k) then [path_file] else []).
Proof.
  unfold append_item, children at 1.
  destruct (decide (par = k)) as [->|Hne].
  - by rewrite lookup_insert_eq.
  - rewrite lookup_insert_ne by done. by rewrite app_nil_r.
Qed.

Lemma children_fold pairs d k :
  children (fold_left (λ d pp, append_item d pp.1 pp.2) pairs d) k =
  children d k ++ (filter (λ pp, pp.1 = k) pairs).*2.
Proof.
  revert d. induction pairs as [|[par path_file] pairs IH]; intros d; simpl.
  - by rewrite app_nil_r.
  - rewrite IH, children_append_item. rewrite filter_cons. simpl.
    destruct (decide (par = k)); simpl; [|by rewrite app_nil_r].
    by rewrite <- app_assoc.
Qed.

(** The order of the pairs is a total order, so that the sorted list of
    [__init__] is the only sorted rearrangement of the pairs. *)
Lemma string_compare_refl (x : string) : String.compare x x = Eq.
Proof.
  pose proof (String.compare_antisym x x) as H.
  by destruct (String.compare x x).
Qed.

Lemma tuple_le_alt a b :
  tuple_le a b ↔ String.le a.1 b.1 ∧ (a.1 = b.1 → String.le a.2 b.2).
Proof.
  unfold tuple_le, tuple_leb, String.le, String.leb.
  destruct (String.compare a.1 b.1) eqn:E.
  - apply String.compare_eq_iff in E. split.
    + intros H. split; [done|]. intros _. by apply Is_true_true.
    + intros [_ H]. by apply Is_true_true, H.
  - split; [|done]. intros _. split; [done|].
    intros Heq. rewrite Heq, string_compare_refl in E. discriminate.
  - split; [done|]. by intros [[] _].
Qed.

#[global] Instance tuple_le_total : Total tuple_le.
Proof.
  intros a b. rewrite !tuple_le_alt.
  destruct (decide (a.1 = b.1)) as [Heq|Hne].
  - rewrite Heq. destruct (total String.le a.2 b.2); [left|right]; done.
  - destruct (total String.le a.1 b.1); [left|right]; split; try done;
      intros ?; congruence.
Qed.

#[global] Instance tuple_le_trans : Transitive tuple_le.
Proof.
  intros a b c. rewrite !tuple_le_alt. intros [Hab Hab2] [Hbc Hbc2].
  split; [by etrans|]. intros Heq. rewrite <- Heq in Hbc.
  assert (a.1 = b.1) as H1 by by apply (anti_symm String.le).
  etrans; [by apply Hab2|]. apply Hbc2. congruence.
Qed.

#[global] Instance tuple_le_antisymm : AntiSymm (=) tuple_le.
Proof.
  intros [a1 a2] [b1 b2]. rewrite !tuple_le_alt. simpl. intros [H1 H2] [H3 H4].
  assert (a1 = b1) as -> by by apply (anti_symm String.le).
  f_equal. apply (anti_symm String.le); auto.
Qed.

Lemma sorted_StronglySorted l : StronglySorted tuple_le (sorted l).
Proof. apply StronglySorted_merge_sort; apply _. Qed.

Lemma sorted_unique l l' :
  l' ≡ₚ l → StronglySorted tuple_le l' → l' = sorted l.
Proof.
  intros Hp Hs. apply (StronglySorted_unique tuple_le); [done| |].
  - apply sorted_StronglySorted.
  - unfold sorted. by rewrite merge_sort_Permutation.
Qed.

Lemma sorted_pairs_parent names pp :
  pp ∈ sorted (zip names (parent <$> names)) → pp.2 = parent pp.1.
Proof.
  unfold sorted. rewrite merge_sort_Permutation.
  induction names as [|x names IH]; simpl; [by intros ?%elem_of_nil|].
  intros [->|?]%elem_of_cons; auto.
Qed.

Lemma sorted_names_Permutation names : sorted_names names ≡ₚ names.
Proof.
  unfold sorted_names, sorted. rewrite merge_sort_Permutation.
  rewrite fst_zip; [done|]. by rewrite length_fmap.
Qed.

Lemma build_tree_dict_nil : build_tree_dict [] = inl ValueError.
Proof. reflexivity. Qed.

Lemma fill_tree_dict_children (l : list (string * string)) k :
  (∀ pp, pp ∈ l → pp.2 = parent pp.1) →
  children (fill_tree_dict (zip l.*2 l.*1)) k = filter (λ p, parent p = k) l.*1.
Proof.
  intros Hpar. unfold fill_tree_dict. rewrite children_fold.
  unfold children at 1. rewrite lookup_empty. simpl default. rewrite app_nil_l.
  induction l as [|[p q] l IH]; [done|].
  assert (q = parent p) as -> by apply (Hpar (p, q)), list_elem_of_here.
  csimpl. rewrite !filter_cons. simpl.
  destruct (decide (parent p = k)); csimpl; f_equal;
    apply IH; intros ??; apply Hpar; by apply list_elem_of_further.
Qed.

Lemma build_tree_dict_children names :
  names ≠ [] →
  ∃ d, build_tree_dict names = inr d ∧ agrees d (index_children names).
Proof.
  intros Hne. unfold build_tree_dict.
  pose proof (merge_sort_Permutation tuple_le (zip names (parent <$> names))) as Hp.
  fold (sorted (zip names (parent <$> names))) in Hp.
  pose proof (sorted_pairs_parent names) as Hpar.
  unfold index_children, sorted_names.
  destruct (sorted (zip names (parent <$> names))) as [|pp l] eqn:E.
  - apply Permutation_nil_l in Hp. by destruct names.
  - unfold unzip2. eexists; split; [done|].
    intros k. by apply fill_tree_dict_children.
Qed.

Lemma elem_of_index_children names k p :
  p ∈ index_children names k ↔ p ∈ names ∧ parent p = k.
Proof.
  unfold index_children. rewrite list_elem_of_filter.
  rewrite (sorted_names_Permutation names). tauto.
Qed.

Lemma index_children_Permutation names k :
  index_children names k ≡ₚ filter (λ p, parent p = k) names.
Proof. unfold index_children. by rewrite sorted_names_Permutation. Qed.


Lemma init_inr tar tmp :
  getnames tar ≠ [] →
  ∃ d, agrees d (index_children (getnames tar)) ∧
       init tar tmp =
         inr {| tar_root := tar; tree_dict := d; tmpdir_name := tmp;
                tmpdir_alive := true; current_path := "";
                opened_at_least_one_tmp := false;
                listbox := index_children (getnames tar) "";
                window_alive := true |}.
Proof.
  intros Hne. destruct (build_tree_dict_children _ Hne) as (d & Hb & Ha).
  unfold init. rewrite Hb.
  destruct (getitem_agrees d "" _ Ha) as [Hg Ha'].
  rewrite Hg. eauto.
Qed.

Lemma init_inl tar tmp : getnames tar = [] → init tar tmp = inl ValueError.
Proof. intros Hn. unfold init. by rewrite Hn. Qed.

Lemma init_inv tar tmp st0 :
  init tar tmp = inr st0 →
  getnames tar ≠ [] ∧ tar_root st0 = tar ∧
  agrees (tree_dict st0) (index_children (getnames tar)) ∧
  listbox st0 = index_children (getnames tar) "" ∧
  current_path st0 = "" ∧ opened_at_least_one_tmp st0 = false ∧
  tmpdir_alive st0 = true ∧ window_alive st0 = true ∧ tmpdir_name st0 = tmp.
Proof.
  intros Hi. destruct (decide (getnames tar = [])) as [Hn|Hn].
  - by rewrite (init_inl _ _ Hn) in Hi.
  - destruct (init_inr tar tmp Hn) as (d & Ha & Hi'). rewrite Hi' in Hi.
    injection Hi as <-. simpl. by repeat split.
Qed.

(** ** The loop of [extract_selection] *)

Lemma extract_loop_keeps fuel d Q d' evs :
  extract_loop fuel d Q = Some (d', evs) →
  (∀ j, children d' j = children d j) ∧
  (∀ j l, d !! j = Some l → d' !! j = Some l).
Proof.
  revert d Q d' evs. induction fuel as [|fuel IH]; intros d Q d' evs; [done|].
  simpl. destruct Q as [|s Q]; [by intros [= <- <-]|].
  destruct (getitem d s) as [kids d1] eqn:Hg.
  destruct (extract_loop fuel d1 (Q ++ kids)) as [[d2 evs2]|] eqn:Hl; [|done].
  intros [= <- <-]. apply IH in Hl as [Hc Hk].
  assert (d1 = (getitem d s).2) as -> by by rewrite Hg.
  split.
  - intros j. by rewrite Hc, getitem_children.
  - intros j l Hj. by apply Hk, getitem_keeps.
Qed.

Lemma extract_loop_more fuel fuel' d Q r :
  fuel ≤ fuel' → extract_loop fuel d Q = Some r → extract_loop fuel' d Q = Some r.
Proof.
  revert fuel' d Q r. induction fuel as [|fuel IH]; intros fuel' d Q r Hle; [done|].
  destruct fuel' as [|fuel']; [lia|]. simpl.
  destruct Q as [|s Q]; [done|].
  destruct (getitem d s) as [kids d1].
  destruct (extract_loop fuel d1 (Q ++ kids)) as [[d2 evs2]|] eqn:Hl; [|done].
  intros [= <-]. by rewrite (IH fuel' _ _ _ ltac:(lia) Hl).
Qed.

(** Every path handed to the loop is extracted first, in queue order, and
    whenever a path is extracted its children are extracted later. *)
Lemma extract_loop_order fuel d Q d' evs ch :
  agrees d ch →
  extract_loop fuel d Q = Some (d', evs) →
  ∃ order, evs = TarExtract <$> order ∧
    (∃ rest, order = Q ++ rest) ∧
    ∀ l1 q l2, order = l1 ++ q :: l2 → ∀ p, p ∈ ch q → p ∈ l2.
Proof.
  revert d Q d' evs. induction fuel as [|fuel IH]; intros d Q d' evs Ha; [done|].
  simpl. destruct Q as [|s Q].
  - intros [= <- <-]. exists []. split_and!; [done|by exists []|].
    intros [|??] ?? [=].
  - destruct (getitem_agrees d s ch Ha) as [Hg Ha1]. rewrite Hg.
    destruct (extract_loop fuel _ (Q ++ ch s)) as [[d2 evs2]|] eqn:Hl; [|done].
    intros [= <- <-].
    destruct (IH _ _ _ _ Ha1 Hl) as (order & -> & [rest ->] & Hlater).
    exists (s :: (Q ++ ch s) ++ rest). split_and!; [done| |].
    + exists (ch s ++ rest). by rewrite <- app_assoc.
    + intros [|x l1] q l2; simpl; intros [= -> Heq] p Hp.
      * subst l2. set_solver.
      * by eapply Hlater.
Qed.

(** One whole level of the queue is extracted and replaced by the next. *)
Lemma extract_loop_level ch Q1 :
  ∀ d, agrees d ch →
  ∃ d1, agrees d1 ch ∧ ∀ fuel Q2,
    extract_loop (length Q1 + fuel) d (Q1 ++ Q2) =
    match extract_loop fuel d1 (Q2 ++ (Q1 ≫= ch)) with
    | None => None
    | Some (d2, evs) => Some (d2, (TarExtract <$> Q1) ++ evs)
    end.
Proof.
  induction Q1 as [|s Q1 IH]; intros d Ha.
  - exists d. split; [done|]. intros fuel Q2. simpl. rewrite app_nil_r.
    by destruct (extract_loop fuel d Q2) as [[??]|].
  - destruct (getitem_agrees d s ch Ha) as [Hg Ha1].
    destruct (IH _ Ha1) as (d1 & Hd1 & Hrun). exists d1. split; [done|].
    intros fuel Q2. simpl. rewrite Hg.
    rewrite <- (app_assoc Q1 Q2 (ch s)), Hrun.
    rewrite <- (app_assoc Q2 (ch s)). csimpl.
    by destruct (extract_loop fuel d1 _) as [[??]|].
Qed.

(** ** Levels below a path *)

Section levels.
Variable ch : string → list string.

Lemma level_succ n Q : level ch (S n) Q = level ch n Q ≫= ch.
Proof. reflexivity. Qed.

Lemma level_shift n Q : level ch n (Q ≫= ch) = level ch (S n) Q.
Proof.
  induction n as [|n IH]; [done|].
  rewrite (level_succ (S n)), <- IH. reflexivity.
Qed.

Lemma level_nil n : level ch n [] = [].
Proof. induction n as [|n IH]; [done|]. by rewrite level_succ, IH. Qed.



Lemma levels_run n :
  ∀ Q d, agrees d ch → level ch n Q = [] →
  ∃ d', agrees d' ch ∧ ∀ fuel, length (levels ch n Q) < fuel →
    extract_loop fuel d Q = Some (d', TarExtract <$> levels ch n Q).
Proof.
  induction n as [|n IH]; intros Q d Ha Hnil.
  - exists d. split; [done|]. intros [|fuel] ?; [lia|].
    simpl in Hnil. by subst Q.
  - rewrite <- level_shift in Hnil.
    destruct (extract_loop_level ch Q d Ha) as (d1 & Ha1 & Hrun).
    destruct (IH _ d1 Ha1 Hnil) as (d' & Ha' & Hrest).
    exists d'. split; [done|]. intros fuel Hfuel.
    simpl in Hfuel. rewrite length_app in Hfuel.
    replace fuel with (length Q + (fuel - length Q)) by lia.
    specialize (Hrun (fuel - length Q) []).
    rewrite app_nil_r in Hrun. rewrite Hrun. simpl.
    rewrite Hrest by lia. by rewrite fmap_app.
Qed.

Variable names : list string.
Hypothesis ch_spec : ∀ k p, p ∈ ch k ↔ p ∈ names ∧ parent p = k.
Variable s : string.
Hypothesis s_not_empty : s ≠ "".

Lemma level_length n p :
  p ∈ level ch n [s] → String.length s + n ≤ String.length p.
Proof.
  revert p. induction n as [|n IH]; intros p.
  - intros ->%list_elem_of_singleton. lia.
  - rewrite level_succ. intros (q & Hp & Hq)%list_elem_of_bind.
    apply ch_spec in Hp as [_ Hpar]. apply IH in Hq.
    assert (p ≠ "") as Hne.
    { intros ->. subst q. destruct s; [done|]. simpl in Hq. lia. }
    apply parent_length in Hne. rewrite Hpar in Hne. lia.
Qed.

Lemma level_parent n p :
  p ∈ level ch (S n) [s] → p ∈ names ∧ parent p ∈ level ch n [s].
Proof.
  rewrite level_succ. intros (q & Hp & Hq)%list_elem_of_bind.
  apply ch_spec in Hp as [? <-]. done.
Qed.


Lemma level_last :
  level ch (S (max_list (String.length <$> names))) [s] = [].
Proof.
  destruct (level ch _ [s]) as [|p l] eqn:E; [done|].
  assert (p ∈ level ch (S (max_list (String.length <$> names))) [s]) as Hp
    by (rewrite E; apply list_elem_of_here).
  pose proof (level_length _ _ Hp) as Hlen.
  apply level_parent in Hp as [Hp _].
  assert (String.length p ≤ max_list (String.length <$> names))
    by by apply max_list_elem_of_le, list_elem_of_fmap_2.
  lia.
Qed.




Hypothesis ch_NoDup : ∀ k, NoDup (ch k).




End levels.

(** ** What every state of a session satisfies *)

Lemma enter_directory_keeps selection st :
  (∀ j, children (tree_dict (enter_directory selection st)) j
        = children (tree_dict st) j) ∧
  (∀ j l, tree_dict st !! j = Some l →
          tree_dict (enter_directory selection st) !! j = Some l).
Proof.
  unfold enter_directory. simpl.
  destruct (getitem (tree_dict st) selection) as [L d] eqn:Hg. simpl.
  assert (d = (getitem (tree_dict st) selection).2) as -> by by rewrite Hg.
  split; intros j; [apply getitem_children|apply getitem_keeps].
Qed.

Lemma enter_directory_frame selection st :
  let st' := enter_directory selection st in
  tar_root st' = tar_root st ∧ tmpdir_name st' = tmpdir_name st ∧
  tmpdir_alive st' = tmpdir_alive st ∧ window_alive st' = window_alive st ∧
  opened_at_least_one_tmp st' = opened_at_least_one_tmp st ∧
  current_path st' = selection ∧
  listbox st' = (if decide (selection = "") then [] else [PARENT_MARKER])
                ++ children (tree_dict st) selection.
Proof.
  unfold enter_directory. simpl. rewrite <- getitem_fst.
  by destruct (getitem (tree_dict st) selection) as [L d].
Qed.

Lemma step_keeps fuel a st st' evs :
  step fuel a st = Some (st', evs) →
  (∀ j, children (tree_dict st') j = children (tree_dict st) j) ∧
  (∀ j l, tree_dict st !! j = Some l → tree_dict st' !! j = Some l).
Proof.
  destruct a as [selection|selection ww lw wh|selection|answer]; simpl.
  - unfold dbl_click_listbox.
    destruct (decide (selection = PARENT_MARKER)).
    { intros [= <- <-]. apply enter_directory_keeps. }
    destruct (getmember_isfile (tar_root st) selection) as [[]|];
      intros [= <- <-]; [done|apply enter_directory_keeps|done].
  - by intros [= <- <-].
  - unfold extract_selection.
    destruct (decide (selection = PARENT_MARKER)); [by intros [= <- <-]|].
    destruct (getmember_isfile (tar_root st) selection) as [[]|];
      [by intros [= <- <-]| |by intros [= <- <-]].
    destruct (extract_loop fuel (tree_dict st) [selection]) as [[d evs']|] eqn:Hl;
      [|done].
    intros [= <- <-]. simpl. by eapply extract_loop_keeps.
  - unfold on_close. destruct (negb _); [by intros [= <- <-]|].
    destruct answer; by intros [= <- <-].
Qed.

Lemma step_frame fuel a st st' evs :
  step fuel a st = Some (st', evs) →
  tar_root st' = tar_root st ∧ tmpdir_name st' = tmpdir_name st ∧
  (window_alive st' = true → window_alive st = true ∧
                             tmpdir_alive st' = tmpdir_alive st) ∧
  opened_at_least_one_tmp st' = opened_at_least_one_tmp st || quick_viewed evs.
Proof.
  destruct a as [selection|selection ww lw wh|selection|answer]; simpl.
  - unfold dbl_click_listbox.
    destruct (decide (selection = PARENT_MARKER)).
    { intros [= <- <-].
      destruct (enter_directory_frame (parent (current_path st)) st)
        as (-> & -> & -> & -> & -> & _).
      by rewrite orb_false_r. }
    destruct (getmember_isfile (tar_root st) selection) as [[]|];
      intros [= <- <-]; simpl; rewrite ?orb_true_r, ?orb_false_r; [done| |done].
    by destruct (enter_directory_frame selection st)
        as (-> & -> & -> & -> & -> & _).
  - intros [= <- <-]. split_and!; [done..|].
    unfold click_listbox. simpl.
    destruct (Z.min _ _ <=? 50)%Z; [by rewrite orb_false_r|].
    destruct (decide (selection = PARENT_MARKER)); [by rewrite orb_false_r|].
    destruct (getmember_isfile (tar_root st) selection) as [[]|];
      [|by rewrite orb_false_r..].
    destruct (negb _); by rewrite orb_false_r.
  - unfold extract_selection.
    destruct (decide (selection = PARENT_MARKER));
      [intros [= <- <-]; by rewrite orb_false_r|].
    destruct (getmember_isfile (tar_root st) selection) as [[]|];
      [intros [= <- <-]; by rewrite orb_false_r|
      |intros [= <- <-]; by rewrite orb_false_r].
    destruct (extract_loop fuel (tree_dict st) [selection]) as [[d evs']|] eqn:Hl;
      [|done].
    intros [= <- <-]. simpl. split_and!; [done..|].
    destruct (extract_loop_order _ _ _ _ _ (children (tree_dict st))
                ltac:(by intros ?) Hl) as (order & -> & _).
    unfold quick_viewed. rewrite existsb_app. simpl. rewrite orb_false_r.
    clear Hl. induction order as [|x order IH]; csimpl; [by rewrite orb_false_r|].
    done.
  - unfold on_close. destruct (opened_at_least_one_tmp st) eqn:E; simpl.
    + destruct answer; intros [= <- <-]; simpl; by rewrite ?E.
    + intros [= <- <-]; simpl; by rewrite ?E.
Qed.

Lemma enter_directory_listing selection st ch :
  agrees (tree_dict st) ch → listing_ok ch (enter_directory selection st).
Proof.
  intros Ha. unfold listing_ok.
  destruct (enter_directory_frame selection st) as (_ & _ & _ & _ & _ & -> & ->).
  by rewrite Ha.
Qed.

Lemma step_listing fuel a st st' evs ch :
  agrees (tree_dict st) ch → listing_ok ch st →
  step fuel a st = Some (st', evs) → listing_ok ch st'.
Proof.
  intros Ha Hl.
  destruct a as [selection|selection ww lw wh|selection|answer]; simpl.
  - unfold dbl_click_listbox.
    destruct (decide (selection = PARENT_MARKER)).
    { intros [= <- <-]. by apply enter_directory_listing. }
    destruct (getmember_isfile (tar_root st) selection) as [[]|];
      intros [= <- <-]; [done|by apply enter_directory_listing|done].
  - by intros [= <- <-].
  - unfold extract_selection.
    destruct (decide (selection = PARENT_MARKER)); [by intros [= <- <-]|].
    destruct (getmember_isfile (tar_root st) selection) as [[]|];
      [by intros [= <- <-]| |by intros [= <- <-]].
    destruct (extract_loop fuel (tree_dict st) [selection]) as [[d evs']|];
      [|done].
    by intros [= <- <-].
  - unfold on_close. destruct (negb _); [by intros [= <- <-]|].
    destruct answer; by intros [= <- <-].
Qed.

Lemma run_listing fuel acts ch :
  ∀ st st' evs, agrees (tree_dict st) ch → listing_ok ch st →
  run fuel acts st = Some (st', evs) → listing_ok ch st'.
Proof.
  induction acts as [|a acts IH]; intros st st' evs Ha Hl; simpl.
  - by intros [= <- <-].
  - destruct (window_alive st); [|by intros [= <- <-]].
    destruct (step fuel a st) as [[st1 evs1]|] eqn:Hs; [|done].
    destruct (run fuel acts st1) as [[st2 evs2]|] eqn:Hr; [|done].
    intros [= <- <-]. apply (IH st1 st2 evs2); [| |done].
    + intros k. destruct (step_keeps _ _ _ _ _ Hs) as [-> _]. apply Ha.
    + by eapply step_listing.
Qed.

Lemma quick_viewed_app evs evs' :
  quick_viewed (evs ++ evs') = quick_viewed evs || quick_viewed evs'.
Proof. apply existsb_app. Qed.

Lemma run_keeps fuel acts :
  ∀ st st' evs, run fuel acts st = Some (st', evs) →
  (∀ j, children (tree_dict st') j = children (tree_dict st) j) ∧
  (∀ j l, tree_dict st !! j = Some l → tree_dict st' !! j = Some l).
Proof.
  induction acts as [|a acts IH]; intros st st' evs; simpl.
  - by intros [= <- <-].
  - destruct (window_alive st); [|by intros [= <- <-]].
    destruct (step fuel a st) as [[st1 evs1]|] eqn:Hs; [|done].
    destruct (run fuel acts st1) as [[st2 evs2]|] eqn:Hr; [|done].
    intros [= <- <-]. apply step_keeps in Hs as [Hc1 Hk1].
    apply IH in Hr as [Hc2 Hk2]. split.
    + intros j. by rewrite Hc2.
    + intros j l Hj. by apply Hk2, Hk1.
Qed.

Lemma run_frame fuel acts :
  ∀ st st' evs, run fuel acts st = Some (st', evs) →
  tar_root st' = tar_root st ∧ tmpdir_name st' = tmpdir_name st ∧
  (window_alive st' = true → window_alive st = true ∧
                             tmpdir_alive st' = tmpdir_alive st) ∧
  opened_at_least_one_tmp st' = opened_at_least_one_tmp st || quick_viewed evs.
Proof.
  induction acts as [|a acts IH]; intros st st' evs; simpl.
  - intros [= <- <-]. by rewrite orb_false_r.
  - destruct (window_alive st) eqn:Hw;
      [|intros [= <- <-]; by rewrite orb_false_r, Hw].
    destruct (step fuel a st) as [[st1 evs1]|] eqn:Hs; [|done].
    destruct (run fuel acts st1) as [[st2 evs2]|] eqn:Hr; [|done].
    intros [= <- <-]. apply step_frame in Hs as (Ht1 & Hn1 & Hw1 & Ho1).
    apply IH in Hr as (Ht2 & Hn2 & Hw2 & Ho2).
    split_and!; [congruence..| |].
    + intros H2. destruct (Hw2 H2) as [H1 ->]. destruct (Hw1 H1) as [_ ->].
      done.
    + by rewrite Ho2, Ho1, quick_viewed_app, orb_assoc.
Qed.

Lemma run_session_inv tar tmp st0 fuel acts st evs :
  init tar tmp = inr st0 → run fuel acts st0 = Some (st, evs) →
  session_inv tar st ∧ tmpdir_name st = tmp ∧
  opened_at_least_one_tmp st = quick_viewed evs.
Proof.
  intros (_ & Ht & Ha & Hl & Hc0 & Ho & Htmp & Hw & Hn)%init_inv Hr.
  pose proof (run_keeps _ _ _ _ _ Hr) as [Hc _].
  assert (listing_ok (index_children (getnames tar)) st) as Hlist.
  { apply (run_listing fuel acts _ st0 st evs Ha); [|done].
    unfold listing_ok. by rewrite Hc0, Hl. }
  apply run_frame in Hr as (Ht' & Hn' & Hw' & Ho').
  split_and!.
  - unfold session_inv. split_and!.
    + congruence.
    + intros k. by rewrite Hc.
    + intros H. destruct (Hw' H) as [_ ->]. done.
    + done.
  - congruence.
  - by rewrite Ho', Ho.
Qed.

(** * The properties of the specification *)

(** ** C1: what the index holds *)

(** C1, as the code has it.  For every list of member paths that is not
    empty, [__init__] builds an index in which the bucket of a key holds,
    up to order, the member paths whose parent path is the key, each as
    often as the archive names it; so a member path is in the bucket of
    its parent path and in no other, and a bucket holds members only.
    The root bucket, of key the empty string, holds exactly the member
    paths whose parent path is empty: those of one segment and those of
    two segments whose first segment is empty, such as [/x]. *)
Theorem path_index_buckets names :
  names ≠ [] →
  ∃ d, build_tree_dict names = inr d ∧
    (∀ k, children d k ≡ₚ filter (λ p, parent p = k) names) ∧
    (∀ p k, (∃ l, d !! k = Some l ∧ p ∈ l) ↔ p ∈ names ∧ k = parent p) ∧
    (∀ p, p ∈ children d "" ↔
          p ∈ names ∧ ((∃ x, segments p = [x]) ∨ (∃ x, segments p = [""; x]))).
Proof.
  intros Hne. destruct (build_tree_dict_children names Hne) as (d & Hb & Ha).
  exists d. split_and!; [done|..].
  - intros k. rewrite Ha. apply index_children_Permutation.
  - intros p k. split.
    + intros (l & Hl & Hp).
      assert (p ∈ children d k) as Hc by (unfold children; by rewrite Hl).
      rewrite Ha in Hc. by apply elem_of_index_children in Hc as [? <-].
    + intros [Hp ->].
      assert (p ∈ children d (parent p)) as Hc
        by (rewrite Ha; by apply elem_of_index_children).
      unfold children in Hc. destruct (d !! parent p) as [l|]; [eauto|].
      by apply elem_of_nil in Hc.
  - intros p. by rewrite Ha, elem_of_index_children, parent_root_iff.
Qed.

(** The theorem at the archive of the scenario. *)
Lemma path_index_buckets_witness :
  ∃ d, build_tree_dict (getnames sample_tar) = inr d ∧
    (∀ k, children d k ≡ₚ filter (λ p, parent p = k) (getnames sample_tar)) ∧
    (∀ p k, (∃ l, d !! k = Some l ∧ p ∈ l)
            ↔ p ∈ getnames sample_tar ∧ k = parent p) ∧
    (∀ p, p ∈ children d "" ↔
          p ∈ getnames sample_tar ∧
          ((∃ x, segments p = [x]) ∨ (∃ x, segments p = [""; x]))).
Proof. apply (path_index_buckets (getnames sample_tar)). discriminate. Defined.

(** The root bucket of the archive whose only member is [/x] holds [/x],
    a path of two segments: C1 as stated fails there. *)
Lemma path_index_root_counterexample :
  ¬ (∀ d, build_tree_dict ["/x"] = inr d →
       ∀ p, p ∈ children d "" ↔ p ∈ ["/x"] ∧ length (segments p) = 1).
Proof.
  intros H.
  destruct (build_tree_dict ["/x"]) as [e|d] eqn:E; [by vm_compute in E|].
  specialize (H d eq_refl "/x").
  assert ("/x" ∈ children d "") as Hin.
  { vm_compute in E. injection E as <-. vm_compute. apply list_elem_of_here. }
  apply H in Hin as [_ Hlen]. vm_compute in Hlen. discriminate.
Qed.

(** ** C4: the archive without members *)

(** C4 fails on the code: for the archive with no member, [__init__]
    raises [ValueError] while it unpacks the sorted pairs, before the index
    exists. *)
Theorem init_empty_archive_raises tmp :
  build_tree_dict (getnames {| members := [] |}) = inl ValueError ∧
  init {| members := [] |} tmp = inl ValueError.
Proof. split; reflexivity. Qed.

(** For every other archive the construction succeeds. *)
Lemma init_succeeds_iff tar tmp :
  (∃ st0, init tar tmp = inr st0) ↔ getnames tar ≠ [].
Proof.
  split.
  - intros [st0 H]. by apply init_inv in H as [? _].
  - intros H. destruct (init_inr tar tmp H) as (d & _ & Hi). eauto.
Qed.

Lemma dbl_click_parent st :
  dbl_click_listbox PARENT_MARKER st
  = (enter_directory (parent (current_path st)) st, []).
Proof. unfold dbl_click_listbox. by rewrite decide_True. Qed.

Lemma dbl_click_directory selection st :
  selection ≠ PARENT_MARKER →
  getmember_isfile (tar_root st) selection = Some false →
  dbl_click_listbox selection st = (enter_directory selection st, []).
Proof.
  intros Hne Hdir. unfold dbl_click_listbox.
  by rewrite decide_False, Hdir by done.
Qed.

Lemma enter_root_listing selection st :
  parent selection = "" →
  let st2 := (dbl_click_listbox PARENT_MARKER (enter_directory selection st)).1 in
  current_path st2 = "" ∧ listbox st2 = children (tree_dict st) "".
Proof.
  intros Hpar. rewrite dbl_click_parent. simpl.
  destruct (enter_directory_frame selection st) as (_ & _ & _ & _ & _ & -> & _).
  rewrite Hpar.
  destruct (enter_directory_frame "" (enter_directory selection st))
    as (_ & _ & _ & _ & _ & -> & ->).
  by destruct (enter_directory_keeps selection st) as [-> _].
Qed.

(** ** C3: into a directory of the root and back *)

(** C3.  At any point of a session at which the root is listed, entering
    a directory [d] that the listing shows and then the parent entry shows
    the same listing again, at the root; this holds of the first listing
    in particular. *)
Theorem root_roundtrip tar tmp st0 fuel acts st evs d :
  init tar tmp = inr st0 →
  run fuel acts st0 = Some (st, evs) →
  current_path st = "" →
  d ∈ listbox st →
  getmember_isfile tar d = Some false →
  let st1 := (dbl_click_listbox d st).1 in
  let st2 := (dbl_click_listbox PARENT_MARKER st1).1 in
  listbox st = index_children (getnames tar) "" ∧
  (d ≠ PARENT_MARKER →
   current_path st1 = d ∧
   listbox st1 = (if decide (d = "") then [] else [PARENT_MARKER])
                 ++ index_children (getnames tar) d) ∧
  current_path st2 = "" ∧
  listbox st2 = listbox st.
Proof.
  intros Hi Hr Hc Hd Hdir.
  destruct (run_session_inv _ _ _ _ _ _ _ Hi Hr) as ((Ht & Ha & _ & Hl) & _).
  unfold listing_ok in Hl. rewrite Hc in Hl. simpl in Hl.
  assert (parent d = "") as Hpar.
  { rewrite Hl in Hd. by apply elem_of_index_children in Hd as [_ ?]. }
  assert (children (tree_dict st) "" = listbox st) as Hroot
    by by rewrite Ha, Hl.
  split; [done|].
  destruct (decide (d = PARENT_MARKER)) as [->|Hne]; cbv zeta.
  - split; [done|]. rewrite (dbl_click_parent st), Hc. simpl.
    rewrite <- Hroot. by apply enter_root_listing.
  - rewrite (dbl_click_directory d st) by (by rewrite ?Ht). simpl.
    split; [|rewrite <- Hroot; by apply enter_root_listing]. intros _.
    destruct (enter_directory_frame d st) as (_ & _ & _ & _ & _ & -> & ->).
    by rewrite Ha.
Qed.

(** The archive of the scenario: into [a] and back. *)
Lemma root_roundtrip_witness :
  ∃ st0, init sample_tar "/tmp/t" = inr st0 ∧
    listbox st0 = ["a"; "d.txt"] ∧
    listbox (dbl_click_listbox "a" st0).1 = [".."; "a/b.png"; "a/c.txt"] ∧
    listbox (dbl_click_listbox ".." (dbl_click_listbox "a" st0).1).1
    = listbox st0.
Proof.
  destruct (init sample_tar "/tmp/t") as [e|st0] eqn:E; [by vm_compute in E|].
  exists st0. split; [done|].
  assert (listbox st0 = ["a"; "d.txt"] ∧ current_path st0 = "") as [Hl Hc]
    by (vm_compute in E; by injection E as <-).
  split_and!; [done| |].
  - vm_compute in E. by injection E as <-.
  - apply (root_roundtrip sample_tar "/tmp/t" st0 0 [] st0 [] "a" E);
      [done|done| |reflexivity].
    rewrite Hl. apply list_elem_of_here.
Defined.

(** ** C10: extracting a file of the root *)

(** C10.  When the selection is a file whose path has no separator, the
    extraction extracts it and opens the viewer on the empty path. *)
Theorem extract_root_file_opens_empty_path fuel selection st :
  selection ≠ PARENT_MARKER →
  getmember_isfile (tar_root st) selection = Some true →
  DELIMITER ∉ list_ascii_of_string selection →
  extract_selection fuel selection st
  = Some (st, [TarExtract selection; SystemViewer ""]).
Proof.
  intros Hne Hfile Hsep. unfold extract_selection.
  rewrite decide_False, Hfile by done. by rewrite parent_no_sep.
Qed.

Lemma extract_root_file_opens_empty_path_witness :
  ∃ st0, init sample_tar "/tmp/t" = inr st0 ∧
    extract_selection 0 "d.txt" st0
    = Some (st0, [TarExtract "d.txt"; SystemViewer ""]).
Proof.
  destruct (init sample_tar "/tmp/t") as [e|st0] eqn:E; [by vm_compute in E|].
  exists st0. split; [done|].
  assert (tar_root st0 = sample_tar) as Ht
    by (vm_compute in E; by injection E as <-).
  apply (extract_root_file_opens_empty_path 0 "d.txt" st0).
  - discriminate.
  - rewrite Ht. reflexivity.
  - by apply (bool_decide_unpack (DELIMITER ∉ list_ascii_of_string "d.txt")).
Defined.

(** ** C8: entering a file *)

(** C8.  Entering a selection that is a file writes it into the temporary
    directory under its last segment, which has no separator, sets the
    flag, opens the viewer on the written file, and changes neither the
    current path nor the listing nor anything else of the explorer. *)
Theorem dbl_click_file_stages selection st :
  selection ≠ PARENT_MARKER →
  getmember_isfile (tar_root st) selection = Some true →
  let filepath := tmpdir_name st +:+ String DELIMITER (basename selection) in
  let st' := (dbl_click_listbox selection st).1 in
  ((dbl_click_listbox selection st).2
   = [OpenWb filepath; TarExtractfile selection;
      WriteFile filepath selection; SystemViewer filepath]) ∧
  (DELIMITER ∉ list_ascii_of_string (basename selection)) ∧
  opened_at_least_one_tmp st' = true ∧
  current_path st' = current_path st ∧
  listbox st' = listbox st ∧
  tree_dict st' = tree_dict st ∧
  tar_root st' = tar_root st ∧
  tmpdir_name st' = tmpdir_name st ∧
  tmpdir_alive st' = tmpdir_alive st ∧
  window_alive st' = window_alive st.
Proof.
  intros Hne Hfile. unfold dbl_click_listbox.
  rewrite decide_False, Hfile by done. simpl.
  split_and!; try done. apply basename_no_sep.
Qed.

Lemma dbl_click_file_stages_witness :
  ∃ st0, init sample_tar "/tmp/t" = inr st0 ∧
    (dbl_click_listbox "a/c.txt" st0).2
    = [OpenWb "/tmp/t/c.txt"; TarExtractfile "a/c.txt";
       WriteFile "/tmp/t/c.txt" "a/c.txt"; SystemViewer "/tmp/t/c.txt"] ∧
    current_path (dbl_click_listbox "a/c.txt" st0).1 = current_path st0 ∧
    listbox (dbl_click_listbox "a/c.txt" st0).1 = listbox st0.
Proof.
  destruct (init sample_tar "/tmp/t") as [e|st0] eqn:E; [by vm_compute in E|].
  exists st0. split; [done|].
  assert (tar_root st0 = sample_tar ∧ tmpdir_name st0 = "/tmp/t") as [Ht Hn]
    by (vm_compute in E; by injection E as <-).
  destruct (dbl_click_file_stages "a/c.txt" st0) as (He & _ & _ & Hc & Hl & _).
  - discriminate.
  - rewrite Ht. reflexivity.
  - rewrite He, Hn. done.
Defined.

(** ** C7: closing *)

(** C7.  At any point of a session the close action cleans the temporary
    directory up and destroys the window without asking exactly when no
    quick-view file was opened so far; otherwise it asks first, and on a
    refusal the explorer is what it was, its window and temporary
    directory still alive. *)
Theorem on_close_prompt tar tmp st0 fuel acts st evs answer :
  init tar tmp = inr st0 →
  run fuel acts st0 = Some (st, evs) →
  window_alive st = true →
  let st' := (on_close answer st).1 in
  let cevs := (on_close answer st).2 in
  (quick_viewed evs = false ↔ cevs = [TmpdirCleanup; WindowDestroy]) ∧
  (quick_viewed evs = false →
   tmpdir_alive st' = false ∧ window_alive st' = false) ∧
  (quick_viewed evs = true →
   head cevs = Some AskOkCancel ∧
   (answer = true →
    cevs = [AskOkCancel; TmpdirCleanup; WindowDestroy] ∧
    tmpdir_alive st' = false ∧ window_alive st' = false) ∧
   (answer = false →
    cevs = [AskOkCancel] ∧ st' = st ∧
    window_alive st' = true ∧ tmpdir_alive st' = true)).
Proof.
  intros Hi Hr Hw.
  destruct (run_session_inv _ _ _ _ _ _ _ Hi Hr) as ((_ & _ & Halive & _) & _ & Ho).
  unfold on_close. rewrite Ho.
  destruct (quick_viewed evs), answer; simpl; naive_solver.
Qed.

Lemma on_close_prompt_witness :
  ∃ st0 st evs, init sample_tar "/tmp/t" = inr st0 ∧
    run 0 [DblClick "d.txt"] st0 = Some (st, evs) ∧
    quick_viewed evs = true ∧
    on_close false st = (st, [AskOkCancel]).
Proof.
  destruct (init sample_tar "/tmp/t") as [e|st0] eqn:E; [by vm_compute in E|].
  destruct (run 0 [DblClick "d.txt"] st0) as [[st evs]|] eqn:R;
    [|vm_compute in E; injection E as <-; by vm_compute in R].
  exists st0, st, evs. split_and!; [done..| |].
  - vm_compute in E. injection E as <-. vm_compute in R. by injection R as <- <-.
  - assert (window_alive st = true) as Hw.
    { vm_compute in E. injection E as <-. vm_compute in R. by injection R as <- <-. }
    assert (quick_viewed evs = true) as Hq.
    { vm_compute in E. injection E as <-. vm_compute in R. by injection R as <- <-. }
    destruct (on_close_prompt sample_tar "/tmp/t" st0 0 [DblClick "d.txt"] st evs
                false E R Hw) as (_ & _ & Hdecl).
    destruct (Hdecl Hq) as (_ & _ & Hno).
    destruct (Hno eq_refl) as (Hc & Hs & _).
    rewrite (surjective_pairing (on_close false st)). by rewrite Hc, Hs.
Defined.

(** ** C6: the index during a session *)

(** C6 as stated fails: entering the directory [a], which has no child,
    looks [a] up in the [defaultdict] and so adds the key [a]. *)
Lemma tree_dict_mutated_counterexample :
  ∃ st0, init {| members := [("a", false)] |} "/tmp/t" = inr st0 ∧
    tree_dict st0 !! "a" = None ∧
    tree_dict (dbl_click_listbox "a" st0).1 !! "a" = Some [] ∧
    tree_dict (dbl_click_listbox "a" st0).1 ≠ tree_dict st0.
Proof.
  destruct (init {| members := [("a", false)] |} "/tmp/t") as [e|st0] eqn:E;
    [by vm_compute in E|].
  exists st0. split; [done|].
  assert (tree_dict st0 !! "a" = None
          ∧ tree_dict (dbl_click_listbox "a" st0).1 !! "a" = Some []) as [H0 H1].
  { vm_compute in E. injection E as <-. by vm_compute. }
  split_and!; [done..|]. intros Heq. rewrite Heq, H0 in H1. discriminate.
Qed.

(** C6, as the code has it.  Whatever actions a session makes, a lookup in
    the index answers as before: every entry is kept with its list, the
    children of every path are the same, and an entry that the session
    added is a key that was looked up, with the empty list. *)
Theorem tree_dict_lookups_preserved fuel acts st st' evs :
  run fuel acts st = Some (st', evs) →
  (∀ k, children (tree_dict st') k = children (tree_dict st) k) ∧
  (∀ k l, tree_dict st !! k = Some l → tree_dict st' !! k = Some l) ∧
  (∀ k l, tree_dict st' !! k = Some l →
          tree_dict st !! k = Some l ∨ (tree_dict st !! k = None ∧ l = [])).
Proof.
  intros [Hc Hk]%run_keeps. split_and!; [done..|].
  intros k l Hl. specialize (Hc k). unfold children in Hc. rewrite Hl in Hc.
  destruct (tree_dict st !! k) as [l0|]; simpl in Hc; subst l; auto.
Qed.

Lemma tree_dict_lookups_preserved_witness :
  ∃ st0 st evs, init sample_tar "/tmp/t" = inr st0 ∧
    run 10 [DblClick "a"; ExtractSelection "a/b.png"; DblClick "..";
            ExtractSelection "a"; Click "d.txt" 600 200 400; Close true] st0
    = Some (st, evs) ∧
    ∀ k, children (tree_dict st) k = children (tree_dict st0) k.
Proof.
  destruct (init sample_tar "/tmp/t") as [e|st0] eqn:E; [by vm_compute in E|].
  destruct (run 10 [DblClick "a"; ExtractSelection "a/b.png"; DblClick "..";
            ExtractSelection "a"; Click "d.txt" 600 200 400; Close true] st0)
    as [[st evs]|] eqn:R;
    [|vm_compute in E; injection E as <-; by vm_compute in R].
  exists st0, st, evs. split_and!; [done..|].
  apply (tree_dict_lookups_preserved _ _ _ _ _ R).
Defined.

(** ** C5: what the preview shows *)

(** C5 as stated fails: the same image file is previewed in a large
    window and not in a small one. *)
Lemma preview_depends_on_size_counterexample :
  ∃ st0, init sample_tar "/tmp/t" = inr st0 ∧
    (click_listbox "a/b.png" 600 200 400 st0).1 = ImagePreview ∧
    (click_listbox "a/b.png" 250 200 400 st0).1 = NothingTooSmall.
Proof.
  destruct (init sample_tar "/tmp/t") as [e|st0] eqn:E; [by vm_compute in E|].
  exists st0. split; [done|].
  vm_compute in E. injection E as <-. by vm_compute.
Qed.


Lemma click_listbox_inputs selection ww lw wh st :
  (click_listbox selection ww lw wh st).1 =
  match preview_inputs selection ww lw wh st with
  | (true, _, _, _, _) => NothingTooSmall
  | (false, true, _, _, _) => ParentNoOp
  | (false, false, None, _, _) => PreviewKeyError
  | (false, false, Some false, _, _) => PlaceholderDirectory
  | (false, false, Some true, s4, s5) =>
      if bool_decide (s4 ∈ [".png"; ".tif"; ".jpg"])
         || bool_decide (s5 ∈ [".jpeg"; ".tiff"; ".webp"])
      then ImagePreview else PlaceholderNonImageFile
  end.
Proof.
  unfold click_listbox, preview_inputs.
  destruct (Z.min _ _ <=? 50)%Z; [done|].
  destruct (decide (selection = PARENT_MARKER)) as [->|Hne].
  - by rewrite bool_decide_eq_true_2.
  - rewrite bool_decide_eq_false_2 by done.
    destruct (getmember_isfile (tar_root st) selection) as [[]|]; [|done..].
    unfold recognised_image. by destruct (_ || _).
Qed.

(** C5, as the code has it.  What the preview shows is a function of
    whether the canvas is too small, whether the selection is the parent
    entry, what the archive says of the selection, and the last four and
    five characters of the selection in lower case.  The image is shown
    exactly when the canvas is large enough, the selection is not the
    parent entry, it is a file, and those characters are one of [.png],
    [.tif], [.jpg], [.jpeg], [.tiff], [.webp]. *)
Theorem preview_determined sel1 ww1 lw1 wh1 st1 sel2 ww2 lw2 wh2 st2 :
  preview_inputs sel1 ww1 lw1 wh1 st1 = preview_inputs sel2 ww2 lw2 wh2 st2 →
  (click_listbox sel1 ww1 lw1 wh1 st1).1 = (click_listbox sel2 ww2 lw2 wh2 st2).1 ∧
  ((click_listbox sel1 ww1 lw1 wh1 st1).1 = ImagePreview ↔
   ∃ s4 s5, preview_inputs sel1 ww1 lw1 wh1 st1 = (false, false, Some true, s4, s5) ∧
     (s4 ∈ [".png"; ".tif"; ".jpg"] ∨ s5 ∈ [".jpeg"; ".tiff"; ".webp"])).
Proof.
  intros Heq. rewrite !click_listbox_inputs, <- Heq. split; [done|].
  destruct (preview_inputs sel1 ww1 lw1 wh1 st1) as [[[[[] []] [[]|]] s4] s5];
    try (split; [done|by intros (? & ? & [=] & _)]).
  destruct (bool_decide _ || bool_decide _) eqn:Hrec.
  - split; [|done]. intros _. exists s4, s5. split; [done|].
    apply orb_true_iff in Hrec as [?%bool_decide_eq_true|?%bool_decide_eq_true];
      auto.
  - split; [done|]. intros (? & ? & [= <- <-] & Hin).
    apply orb_false_iff in Hrec as [?%bool_decide_eq_false ?%bool_decide_eq_false].
    tauto.
Qed.

Lemma preview_determined_witness :
  ∃ st0 st1, init sample_tar "/tmp/t" = inr st0 ∧
    init capitals_tar "/tmp/u" = inr st1 ∧
    (click_listbox "a/b.png" 600 200 400 st0).1
    = (click_listbox "x/B.PNG" 700 100 300 st1).1.
Proof.
  destruct (init sample_tar "/tmp/t") as [e|st0] eqn:E0; [by vm_compute in E0|].
  destruct (init capitals_tar "/tmp/u") as [e|st1] eqn:E1; [by vm_compute in E1|].
  exists st0, st1. split_and!; [done..|].
  apply (preview_determined "a/b.png" 600 200 400 st0 "x/B.PNG" 700 100 300 st1).
  vm_compute in E0. injection E0 as <-.
  vm_compute in E1. injection E1 as <-. by vm_compute.
Defined.

(** ** C2 and C9: extracting a directory *)

#[local] Instance TarExtract_inj : Inj (=) (=) TarExtract.
Proof. by intros ?? [=]. Qed.

(** The extraction of a directory ends and extracts level after level. *)
Lemma extract_directory_levels tar st selection :
  session_inv tar st →
  selection ≠ PARENT_MARKER → selection ≠ "" →
  getmember_isfile tar selection = Some false →
  let ch := index_children (getnames tar) in
  let n := S (max_list (String.length <$> getnames tar)) in
  level ch n [selection] = [] ∧
  ∃ st', ∀ fuel, length (levels ch n [selection]) < fuel →
    extract_selection fuel selection st
    = Some (st', (TarExtract <$> levels ch n [selection])
                 ++ [SystemViewer selection]).
Proof.
  intros (Ht & Ha & _) Hmark Hne Hdir ch n.
  assert (level ch n [selection] = []) as Hnil
    by (apply (level_last ch (getnames tar)); [apply elem_of_index_children|done]).
  split; [done|].
  destruct (levels_run ch n [selection] (tree_dict st) Ha Hnil)
    as (d' & _ & Hrun).
  exists (set_tree_dict d' st). intros fuel Hfuel.
  unfold extract_selection. rewrite decide_False, Ht, Hdir by done.
  by rewrite (Hrun fuel Hfuel).
Qed.

(** C9 as stated fails: below [a], the file [a/c/z] of the later child
    [a/c] is extracted before the file [a/b/x/deep] of the earlier child
    [a/b]. *)
Lemma extraction_not_depth_first_counterexample :
  ∃ st0 st', init deep_tar "/tmp/t" = inr st0 ∧
    children (tree_dict st0) "a" = ["a/b"; "a/c"] ∧
    descendant (getnames deep_tar) "a/b" "a/b/x/deep" ∧
    descendant (getnames deep_tar) "a/c" "a/c/z" ∧
    extract_selection 8 "a" st0
    = Some (st', [TarExtract "a"; TarExtract "a/b"; TarExtract "a/c";
                  TarExtract "a/b/x"; TarExtract "a/c/z";
                  TarExtract "a/b/x/deep"; SystemViewer "a"]).
Proof.
  destruct (init deep_tar "/tmp/t") as [e|st0] eqn:E; [by vm_compute in E|].
  destruct (extract_selection 8 "a" st0) as [[st' evs]|] eqn:X;
    [|vm_compute in E; injection E as <-; by vm_compute in X].
  exists st0, st'. split_and!; [done| | | |].
  - vm_compute in E. by injection E as <-.
  - apply descendant_child; [in_names|].
    apply descendant_child; [in_names|]. apply descendant_self.
  - apply descendant_child; [in_names|]. apply descendant_self.
  - vm_compute in E. injection E as <-. vm_compute in X. by injection X as <- <-.
Qed.

(** C9, as the code has it.  The walk is breadth first: the extraction of
    a directory other than the empty path ends, and it extracts the
    selection, then its children in the order of the index, then their
    children, and so on level by level until a level is empty; the viewer
    is opened after the last extraction. *)
Theorem extraction_level_order tar tmp st0 fuel0 acts st evs0 selection :
  init tar tmp = inr st0 →
  run fuel0 acts st0 = Some (st, evs0) →
  selection ≠ PARENT_MARKER → selection ≠ "" →
  getmember_isfile tar selection = Some false →
  let ch := index_children (getnames tar) in
  ∃ n st', level ch n [selection] = [] ∧
    ∀ fuel, length (levels ch n [selection]) < fuel →
      extract_selection fuel selection st
      = Some (st', (TarExtract <$> levels ch n [selection])
                   ++ [SystemViewer selection]).
Proof.
  intros Hi Hr Hmark Hne Hdir ch.
  destruct (run_session_inv _ _ _ _ _ _ _ Hi Hr) as (Hinv & _).
  destruct (extract_directory_levels tar st selection Hinv Hmark Hne Hdir)
    as (Hnil & st' & Hrun).
  eauto.
Qed.

Lemma extraction_level_order_witness :
  ∃ st0 n st', init deep_tar "/tmp/t" = inr st0 ∧
    level (index_children (getnames deep_tar)) n ["a"] = [] ∧
    extract_selection
      (S (length (levels (index_children (getnames deep_tar)) n ["a"]))) "a" st0
    = Some (st', (TarExtract <$> levels (index_children (getnames deep_tar)) n ["a"])
                 ++ [SystemViewer "a"]).
Proof.
  destruct (init deep_tar "/tmp/t") as [e|st0] eqn:E; [by vm_compute in E|].
  destruct (extraction_level_order deep_tar "/tmp/t" st0 0 [] st0 [] "a" E)
    as (n & st' & Hnil & Hrun); [done|discriminate|discriminate|reflexivity|].
  exists st0, n, st'. split_and!; [done..|]. apply Hrun. lia.
Defined.


(** In an archive whose directory has the empty path, extracting that
    directory never ends: the empty path is its own child. *)
Lemma extract_loop_empty_path fuel d :
  d !! "" = Some [""] → extract_loop fuel d [""] = None.
Proof.
  intros Hd. induction fuel as [|fuel IH]; [done|].
  simpl. unfold getitem. rewrite Hd. simpl. by rewrite IH.
Qed.

Lemma extraction_empty_path_diverges fuel :
  ∃ st0, init {| members := [("", false)] |} "/tmp/t" = inr st0 ∧
    listbox st0 = [""] ∧ extract_selection fuel "" st0 = None.
Proof.
  destruct (init {| members := [("", false)] |} "/tmp/t") as [e|st0] eqn:E;
    [by vm_compute in E|].
  exists st0. split; [done|].
  vm_compute in E. injection E as <-. split; [done|].
  unfold extract_selection. simpl.
  rewrite extract_loop_empty_path; done.
Qed.



(** * Further properties of the code *)

(** ** Paths: parent and last segment *)

Section more_strings.
Variable sep : ascii.

Lemma split_two s :
  sep ∈ list_ascii_of_string s → ∃ x y l, Py.split sep s = x :: y :: l.
Proof.
  induction s as [|c r IH]; simpl; [by intros ?%elem_of_nil|].
  destruct (decide (c = sep)) as [->|Hc].
  - intros _. pose proof (split_not_nil sep r).
    destruct (Py.split sep r) as [|y l]; [done|]. eauto.
  - intros [?|Hin]%elem_of_cons; [done|].
    destruct (IH Hin) as (x & y & l & ->). eauto.
Qed.

Lemma split_app_segment d f :
  sep ∉ list_ascii_of_string f →
  Py.split sep (d +:+ String sep f) = Py.split sep d ++ [f].
Proof.
  intros Hf. induction d as [|c r IH].
  - change ("" +:+ String sep f) with (String sep f). simpl.
    rewrite decide_True by done. by rewrite split_no_sep.
  - rewrite string_app_cons. simpl. rewrite IH.
    destruct (decide (c = sep)); [done|].
    pose proof (split_not_nil sep r).
    by destruct (Py.split sep r).
Qed.

End more_strings.

Lemma parent_basename p :
  DELIMITER ∈ list_ascii_of_string p →
  p = parent p +:+ String DELIMITER (basename p).
Proof.
  intros Hin. unfold parent, basename.
  rewrite <- (join_split DELIMITER p) at 1.
  rewrite (split_snoc DELIMITER p) at 1.
  apply join_snoc.
  destruct (split_two DELIMITER p Hin) as (x & y & l & ->). done.
Qed.

Lemma parent_basename_join d f :
  DELIMITER ∉ list_ascii_of_string f →
  parent (d +:+ String DELIMITER f) = d ∧
  basename (d +:+ String DELIMITER f) = f.
Proof.
  intros Hf. unfold parent, basename.
  rewrite split_app_segment by done. split.
  - unfold Py.but_last. rewrite removelast_last. apply join_split.
  - unfold Py.last_item. apply last_last.
Qed.

(** X1.  The parent path and the last segment take a path apart and the
    separator puts it together again: a path that has a separator is its
    parent path, the separator and its last segment; a path that has none
    is its own last segment, below the empty parent path; and the path
    made of any [d], the separator and a segment [f] has parent path [d]
    and last segment [f]. *)
Theorem parent_basename_roundtrip p d f :
  (DELIMITER ∈ list_ascii_of_string p →
   p = parent p +:+ String DELIMITER (basename p)) ∧
  (DELIMITER ∉ list_ascii_of_string p → parent p = "" ∧ basename p = p) ∧
  (DELIMITER ∉ list_ascii_of_string f →
   parent (d +:+ String DELIMITER f) = d ∧
   basename (d +:+ String DELIMITER f) = f).
Proof.
  split_and!.
  - apply parent_basename.
  - intros Hp. split; [by apply parent_no_sep|].
    unfold basename. by rewrite split_no_sep.
  - apply parent_basename_join.
Qed.

Lemma parent_basename_roundtrip_witness :
  "a/b/c.txt" = parent "a/b/c.txt" +:+ String DELIMITER (basename "a/b/c.txt") ∧
  (parent "d.txt" = "" ∧ basename "d.txt" = "d.txt") ∧
  (parent ("a/b" +:+ String DELIMITER "c.txt") = "a/b" ∧
   basename ("a/b" +:+ String DELIMITER "c.txt") = "c.txt").
Proof.
  destruct (parent_basename_roundtrip "a/b/c.txt" "a/b" "c.txt") as (H1 & _ & H3).
  destruct (parent_basename_roundtrip "d.txt" "" "") as (_ & H2 & _).
  split; [|split].
  - apply H1. in_names.
  - apply H2. by apply (bool_decide_unpack (DELIMITER ∉ list_ascii_of_string "d.txt")).
  - apply H3. by apply (bool_decide_unpack (DELIMITER ∉ list_ascii_of_string "c.txt")).
Defined.

(** ** The index: keys, order, first state *)

Lemma lookup_append_item d par path_file k :
  append_item d par path_file !! k
  = if decide (par = k) then Some (children d k ++ [path_file]) else d !! k.
Proof.
  unfold append_item. destruct (decide (par = k)) as [->|Hne].
  - by rewrite lookup_insert_eq.
  - by rewrite lookup_insert_ne.
Qed.

Lemma fold_append_lookup pairs :
  ∀ d k,
  let d' := fold_left (λ d pp, append_item d pp.1 pp.2) pairs d in
  (is_Some (d' !! k) ↔ is_Some (d !! k) ∨ k ∈ pairs.*1) ∧
  ((∀ l, d !! k = Some l → l ≠ []) → ∀ l, d' !! k = Some l → l ≠ []).
Proof.
  induction pairs as [|[par x] pairs IH]; intros d k; simpl.
  - split; [|done]. split; [by left|]. by intros [?|?%elem_of_nil].
  - destruct (IH (append_item d par x) k) as [Hsome Hne].
    rewrite lookup_append_item in Hsome, Hne. split.
    + rewrite Hsome, elem_of_cons.
      destruct (decide (par = k)) as [->|Hpk].
      * split; intros _; [right; by left|left; eauto].
      * split; [intros [?|?]; [by left|right; by right]|].
        intros [?|[?|?]]; [by left|congruence|by right].
    + intros Hd. apply Hne. intros l.
      destruct (decide (par = k)); [|by apply Hd].
      intros [= <-]. by destruct (children d k).
Qed.

Lemma sorted_pairs_parents names :
  (sorted (zip names (parent <$> names))).*2 ≡ₚ parent <$> names.
Proof.
  unfold sorted. rewrite merge_sort_Permutation.
  rewrite snd_zip; [done|]. by rewrite length_fmap.
Qed.

(** X2.  The keys of the index that lines 51 to 57 build are exactly the
    parent paths of the member paths, and no bucket is empty; so the key
    of the root is missing when no member path lies at the root. *)
Theorem index_keys names :
  names ≠ [] →
  ∃ d, build_tree_dict names = inr d ∧
    (∀ k, is_Some (d !! k) ↔ ∃ p, p ∈ names ∧ parent p = k) ∧
    (∀ k l, d !! k = Some l → l ≠ []).
Proof.
  intros Hne. unfold build_tree_dict.
  pose proof (sorted_pairs_parents names) as Hperm.
  pose proof (merge_sort_Permutation tuple_le (zip names (parent <$> names))) as Hp.
  fold (sorted (zip names (parent <$> names))) in Hp.
  destruct (sorted (zip names (parent <$> names))) as [|pp l] eqn:E.
  { apply Permutation_nil_l in Hp. by destruct names. }
  unfold unzip2. eexists. split; [done|].
  unfold fill_tree_dict. split.
  - intros k.
    destruct (fold_append_lookup (zip (pp :: l).*2 (pp :: l).*1) ∅ k) as [-> _].
    rewrite lookup_empty, fst_zip by (by rewrite !length_fmap).
    rewrite Hperm, list_elem_of_fmap. split.
    + intros [[? [=]]|(p & -> & Hin)]; eauto.
    + intros (p & Hin & <-). right. eauto.
  - intros k.
    destruct (fold_append_lookup (zip (pp :: l).*2 (pp :: l).*1) ∅ k) as [_ H].
    apply H. intros l'. by rewrite lookup_empty.
Qed.

Lemma index_keys_witness :
  ∃ d, build_tree_dict ["a/b"; "a/c"] = inr d ∧
    is_Some (d !! "a") ∧ d !! "" = None.
Proof.
  destruct (index_keys ["a/b"; "a/c"]) as (d & Hb & Hkeys & _); [done|].
  exists d. split_and!; [done| |].
  - apply Hkeys. exists "a/b". split; [in_names|reflexivity].
  - apply eq_None_not_Some. rewrite Hkeys. intros (p & Hin & Hpar).
    apply elem_of_cons in Hin as [->|Hin]; [by vm_compute in Hpar|].
    apply list_elem_of_singleton in Hin as ->. by vm_compute in Hpar.
Defined.

Lemma zip_parents names :
  zip names (parent <$> names) = (λ p, (p, parent p)) <$> names.
Proof. induction names as [|p names IH]; [done|]. csimpl. by rewrite IH. Qed.

(** X3.  The index does not depend on the order in which the archive
    lists its members: two lists of member paths that are rearrangements
    of each other give the same index, or both the same error. *)
Theorem index_order_independent names names' :
  names ≡ₚ names' → build_tree_dict names = build_tree_dict names'.
Proof.
  intros Hp. unfold build_tree_dict.
  assert (sorted (zip names (parent <$> names))
          = sorted (zip names' (parent <$> names'))) as ->; [|done].
  apply sorted_unique; [|apply sorted_StronglySorted].
  unfold sorted. rewrite merge_sort_Permutation, !zip_parents. by rewrite Hp.
Qed.

Lemma index_order_independent_witness :
  build_tree_dict ["d.txt"; "a/c.txt"; "a"; "a/b.png"]
  = build_tree_dict ["a"; "a/b.png"; "a/c.txt"; "d.txt"].
Proof.
  apply index_order_independent.
  apply (bool_decide_unpack
           (["d.txt"; "a/c.txt"; "a"; "a/b.png"]
            ≡ₚ ["a"; "a/b.png"; "a/c.txt"; "d.txt"])).
  by vm_compute.
Defined.

Lemma StronglySorted_filter {A} (R : relation A) (P : A → Prop)
    `{∀ x, Decision (P x)} l :
  StronglySorted R l → StronglySorted R (filter P l).
Proof.
  induction 1 as [|x l Hs IH Hall]; [constructor|].
  rewrite filter_cons. destruct (decide (P x)); [|done].
  constructor; [done|]. apply Forall_forall. intros y [_ Hy]%list_elem_of_filter.
  by eapply Forall_forall in Hall.
Qed.

Lemma index_children_sorted names k :
  StronglySorted String.le (index_children names k).
Proof.
  unfold index_children, sorted_names. apply StronglySorted_filter.
  apply (StronglySorted_fmap _ tuple_le); [|apply sorted_StronglySorted].
  intros a b Hab. by apply tuple_le_alt in Hab as [? _].
Qed.

(** X4.  Every bucket of the index is in the order of the strings,
    whatever the order of the archive: of two paths of a bucket the
    earlier one is the smaller or the same. *)
Theorem index_buckets_sorted names d :
  build_tree_dict names = inr d →
  ∀ k, StronglySorted String.le (children d k).
Proof.
  intros Hb k. destruct (decide (names = [])) as [->|Hne]; [done|].
  destruct (build_tree_dict_children names Hne) as (d' & Hb' & Ha).
  rewrite Hb in Hb'. injection Hb' as <-. rewrite Ha.
  apply index_children_sorted.
Qed.

Lemma index_buckets_sorted_witness :
  ∃ d, build_tree_dict (getnames sample_tar) = inr d ∧
    children d "a" = ["a/b.png"; "a/c.txt"] ∧
    StronglySorted String.le (children d "a").
Proof.
  destruct (build_tree_dict (getnames sample_tar)) as [e|d] eqn:E;
    [by vm_compute in E|].
  exists d. split_and!; [done| |].
  - vm_compute in E. by injection E as <-.
  - by apply (index_buckets_sorted (getnames sample_tar) d).
Defined.

(** X5.  [__init__] raises, and then [ValueError], exactly for the archive
    without members.  For every other archive it gives an explorer at the
    root that shows the root bucket of the index, in which the root has a
    key even when no member lies at the root, with no quick-view file
    opened, the temporary directory and the window alive. *)
Theorem init_outcome tar tmp :
  (∀ e, init tar tmp = inl e ↔ e = ValueError ∧ getnames tar = []) ∧
  (getnames tar ≠ [] →
   ∃ st0, init tar tmp = inr st0 ∧
     tar_root st0 = tar ∧ tmpdir_name st0 = tmp ∧
     current_path st0 = "" ∧
     listbox st0 = index_children (getnames tar) "" ∧
     tree_dict st0 !! "" = Some (index_children (getnames tar) "") ∧
     opened_at_least_one_tmp st0 = false ∧
     tmpdir_alive st0 = true ∧ window_alive st0 = true).
Proof.
  split.
  - intros e. split.
    + intros Hi. destruct (decide (getnames tar = [])) as [Hn|Hn].
      * rewrite (init_inl _ _ Hn) in Hi. by injection Hi as <-.
      * destruct (init_inr tar tmp Hn) as (d & _ & Hi'). congruence.
    + intros [-> Hn]. by apply init_inl.
  - intros Hne. destruct (build_tree_dict_children _ Hne) as (d & Hb & Ha).
    unfold init. rewrite Hb.
    destruct (getitem d "") as [root d'] eqn:Hg. eexists. split; [done|]. simpl.
    assert (root = index_children (getnames tar) "") as ->.
    { rewrite <- Ha, <- getitem_fst. by rewrite Hg. }
    split_and!; try done.
    unfold getitem in Hg. specialize (Ha ""). unfold children in Ha.
    destruct (d !! "") as [l|] eqn:Hl; injection Hg as <- <-.
    + done.
    + by rewrite lookup_insert_eq.
Qed.

Lemma init_outcome_witness :
  ∃ st0, init {| members := [("a/b", true)] |} "/tmp/t" = inr st0 ∧
    listbox st0 = [] ∧ tree_dict st0 !! "" = Some [].
Proof.
  destruct (init_outcome {| members := [("a/b", true)] |} "/tmp/t") as [_ H].
  destruct H as (st0 & Hi & _ & _ & _ & Hl & Hd & _); [done|].
  exists st0. split_and!; [done| |].
  - rewrite Hl. reflexivity.
  - rewrite Hd. reflexivity.
Defined.

(** ** Sessions: the listing, the selection, the way up *)

(** X6.  At every point of a session the list box shows the current
    directory: the parent entry unless the current path is the root, then
    the bucket of the current path in the order of the index. *)
Theorem listing_shows_current_directory tar tmp st0 fuel acts st evs :
  init tar tmp = inr st0 →
  run fuel acts st0 = Some (st, evs) →
  listbox st
  = (if decide (current_path st = "") then [] else [PARENT_MARKER])
    ++ index_children (getnames tar) (current_path st) ∧
  children (tree_dict st) (current_path st)
  = index_children (getnames tar) (current_path st).
Proof.
  intros Hi Hr.
  destruct (run_session_inv _ _ _ _ _ _ _ Hi Hr) as ((_ & Ha & _ & Hl) & _).
  split; [apply Hl|apply Ha].
Qed.

Lemma listing_shows_current_directory_witness :
  ∃ st0 st evs, init sample_tar "/tmp/t" = inr st0 ∧
    run 0 [DblClick "a"; DblClick "a/c.txt"] st0 = Some (st, evs) ∧
    current_path st = "a" ∧
    listbox st = [".."; "a/b.png"; "a/c.txt"].
Proof.
  destruct (init sample_tar "/tmp/t") as [e|st0] eqn:E; [by vm_compute in E|].
  destruct (run 0 [DblClick "a"; DblClick "a/c.txt"] st0) as [[st evs]|] eqn:R;
    [|vm_compute in E; injection E as <-; by vm_compute in R].
  assert (current_path st = "a") as Hc.
  { vm_compute in E. injection E as <-. vm_compute in R. by injection R as <- <-. }
  exists st0, st, evs. split_and!; [done..|].
  destruct (listing_shows_current_directory _ _ _ _ _ _ _ E R) as [-> _].
  rewrite Hc. reflexivity.
Defined.


Lemma extract_selection_events fuel selection st st' evs :
  extract_selection fuel selection st = Some (st', evs) →
  evs = [] ∨ evs = [CallbackError KeyError] ∨
  ∃ order where_, evs = (TarExtract <$> order) ++ [SystemViewer where_].
Proof.
  unfold extract_selection.
  destruct (decide (selection = PARENT_MARKER)); [intros [= <- <-]; by left|].
  destruct (getmember_isfile (tar_root st) selection) as [[]|].
  - intros [= <- <-]. right; right. by exists [selection], (parent selection).
  - destruct (extract_loop fuel (tree_dict st) [selection]) as [[d evs']|] eqn:Hl;
      [|done].
    intros [= <- <-]. right; right.
    destruct (extract_loop_order _ _ _ _ _ (children (tree_dict st))
                ltac:(by intros ?) Hl) as (order & -> & _).
    by exists order, selection.
  - intros [= <- <-]. right; by left.
Qed.





Lemma go_up_path st : current_path (go_up st) = parent (current_path st).
Proof.
  unfold go_up. rewrite dbl_click_parent. simpl.
  by destruct (enter_directory_frame (parent (current_path st)) st)
    as (_ & _ & _ & _ & _ & -> & _).
Qed.

Lemma go_up_inv ch st :
  agrees (tree_dict st) ch →
  agrees (tree_dict (go_up st)) ch ∧ listing_ok ch (go_up st).
Proof.
  intros Ha. unfold go_up. rewrite dbl_click_parent. simpl. split.
  - intros k. destruct (enter_directory_keeps (parent (current_path st)) st)
      as [-> _]. apply Ha.
  - by apply enter_directory_listing.
Qed.

Lemma parent_length_le p : String.length (parent p) ≤ String.length p - 1.
Proof.
  destruct (decide (p = "")) as [->|Hne]; [done|].
  pose proof (parent_length p Hne). lia.
Qed.

Lemma go_up_iter ch n :
  ∀ st, agrees (tree_dict st) ch → listing_ok ch st →
  agrees (tree_dict (Nat.iter n go_up st)) ch ∧
  listing_ok ch (Nat.iter n go_up st) ∧
  String.length (current_path (Nat.iter n go_up st))
  ≤ String.length (current_path st) - n.
Proof.
  induction n as [|n IH]; intros st Ha Hl; simpl.
  - split_and!; [done..|lia].
  - destruct (IH st Ha Hl) as (Ha' & _ & Hlen).
    destruct (go_up_inv ch _ Ha') as [Ha'' Hl'']. split_and!; [done..|].
    rewrite go_up_path.
    pose proof (parent_length_le (current_path (Nat.iter n go_up st))). lia.
Qed.

(** X9.  From any point of a session, entering the parent entry as many
    times as the current path has characters, or more often, leads to the
    root and its listing: the way up always ends, and at the root the
    parent entry changes nothing. *)
Theorem parent_entry_reaches_root tar tmp st0 fuel acts st evs n :
  init tar tmp = inr st0 →
  run fuel acts st0 = Some (st, evs) →
  String.length (current_path st) ≤ n →
  current_path (Nat.iter n go_up st) = "" ∧
  listbox (Nat.iter n go_up st) = index_children (getnames tar) "".
Proof.
  intros Hi Hr Hn.
  destruct (run_session_inv _ _ _ _ _ _ _ Hi Hr) as ((_ & Ha & _ & Hl) & _).
  destruct (go_up_iter _ n st Ha Hl) as (_ & Hl' & Hlen).
  assert (current_path (Nat.iter n go_up st) = "") as Hc.
  { destruct (current_path (Nat.iter n go_up st)); [done|]. simpl in Hlen. lia. }
  split; [done|]. unfold listing_ok in Hl'. by rewrite Hc in Hl'.
Qed.

Lemma parent_entry_reaches_root_witness :
  ∃ st0 st evs, init deep_tar "/tmp/t" = inr st0 ∧
    run 0 [DblClick "a"; DblClick "a/b"; DblClick "a/b/x"] st0 = Some (st, evs) ∧
    current_path st = "a/b/x" ∧
    current_path (Nat.iter 5 go_up st) = "" ∧
    listbox (Nat.iter 5 go_up st) = ["a"].
Proof.
  destruct (init deep_tar "/tmp/t") as [e|st0] eqn:E; [by vm_compute in E|].
  destruct (run 0 [DblClick "a"; DblClick "a/b"; DblClick "a/b/x"] st0)
    as [[st evs]|] eqn:R;
    [|vm_compute in E; injection E as <-; by vm_compute in R].
  assert (current_path st = "a/b/x") as Hc.
  { vm_compute in E. injection E as <-. vm_compute in R. by injection R as <- <-. }
  exists st0, st, evs. split_and!; [done..| |].
  - apply (parent_entry_reaches_root deep_tar "/tmp/t" st0 0 _ st evs 5 E R).
    rewrite Hc. simpl. lia.
  - destruct (parent_entry_reaches_root deep_tar "/tmp/t" st0 0 _ st evs 5 E R)
      as [_ ->]; [rewrite Hc; simpl; lia|]. reflexivity.
Defined.

(** ** Sessions: the flag and the temporary directory *)

(** X10.  The flag of the quick-view files is never reset: once it is
    set, it is set after every further sequence of actions, and every
    later close action asks the user first. *)
Theorem quick_view_flag_stays fuel acts st st' evs :
  run fuel acts st = Some (st', evs) →
  opened_at_least_one_tmp st = true →
  opened_at_least_one_tmp st' = true ∧
  ∀ answer, head (on_close answer st').2 = Some AskOkCancel.
Proof.
  intros (_ & _ & _ & Ho)%run_frame Hset. rewrite Hset in Ho. simpl in Ho.
  split; [done|]. intros answer. unfold on_close. rewrite Ho. simpl.
  by destruct answer.
Qed.

Lemma quick_view_flag_stays_witness :
  ∃ st0 st1 st evs, init sample_tar "/tmp/t" = inr st0 ∧
    st1 = (dbl_click_listbox "d.txt" st0).1 ∧
    run 5 [DblClick "a"; ExtractSelection "a"; DblClick ".."; Close false] st1
    = Some (st, evs) ∧
    opened_at_least_one_tmp st = true.
Proof.
  destruct (init sample_tar "/tmp/t") as [e|st0] eqn:E; [by vm_compute in E|].
  destruct (run 5 [DblClick "a"; ExtractSelection "a"; DblClick ".."; Close false]
              (dbl_click_listbox "d.txt" st0).1) as [[st evs]|] eqn:R;
    [|vm_compute in E; injection E as <-; by vm_compute in R].
  exists st0, (dbl_click_listbox "d.txt" st0).1, st, evs.
  split_and!; [done..|].
  apply (quick_view_flag_stays _ _ _ _ _ R).
  vm_compute in E. by injection E as <-.
Defined.

(** An event that differs from every event of an explicit list. *)
Ltac event_absent :=
  let H := fresh in
  intros H;
  repeat first
    [ apply elem_of_nil in H
    | apply elem_of_app in H as [H|H]
    | apply elem_of_cons in H as [H|H]
    | apply list_elem_of_fmap in H as (? & H & _) ];
  try discriminate H; try done.

Lemma run_dead fuel acts st :
  window_alive st = false → run fuel acts st = Some (st, []).
Proof. intros Hw. destruct acts; simpl; [done|]. by rewrite Hw. Qed.

Lemma step_lifetime fuel a st st' evs :
  tmpdir_alive st = true → window_alive st = true →
  step fuel a st = Some (st', evs) →
  (tmpdir_alive st' = true ∧ window_alive st' = true ∧
   (TmpdirCleanup ∉ evs) ∧ (WindowDestroy ∉ evs)) ∨
  (tmpdir_alive st' = false ∧ window_alive st' = false ∧
   (TmpdirCleanup ∈ evs) ∧ (WindowDestroy ∈ evs)).
Proof.
  intros Ht Hw. destruct a as [selection|selection ww lw wh|selection|answer]; simpl.
  - intros [= Hd]. left. unfold dbl_click_listbox in Hd.
    destruct (decide (selection = PARENT_MARKER)).
    { injection Hd as <- <-.
      destruct (enter_directory_frame (parent (current_path st)) st)
        as (_ & _ & -> & -> & _).
      split_and!; [done..| |]; by intros ?%elem_of_nil. }
    destruct (getmember_isfile (tar_root st) selection) as [[]|];
      injection Hd as <- <-; simpl.
    + split_and!; [done..| |]; rewrite !elem_of_cons, elem_of_nil;
        by intros [?|[?|[?|[?|?]]]].
    + destruct (enter_directory_frame selection st) as (_ & _ & -> & -> & _).
      split_and!; [done..| |]; by intros ?%elem_of_nil.
    + split_and!; [done..| |]; rewrite !elem_of_cons, elem_of_nil;
        by intros [?|?].
  - intros [= <- <-]. left. split_and!; [done..| |];
      unfold click_listbox;
      destruct (Z.min _ _ <=? 50)%Z; simpl;
      try destruct (decide (selection = PARENT_MARKER)); simpl;
      try destruct (getmember_isfile (tar_root st) selection) as [[]|]; simpl;
      try destruct (negb _); simpl; event_absent.
  - intros Hx. left.
    assert (tmpdir_alive st' = tmpdir_alive st ∧ window_alive st' = window_alive st)
      as [-> ->].
    { unfold extract_selection in Hx.
      destruct (decide (selection = PARENT_MARKER)); [by injection Hx as <- _|].
      destruct (getmember_isfile (tar_root st) selection) as [[]|];
        [by injection Hx as <- _| |by injection Hx as <- _].
      destruct (extract_loop _ _ _) as [[d e']|]; [|done].
      by injection Hx as <- _. }
    split_and!; [done..| |];
      destruct (extract_selection_events _ _ _ _ _ Hx)
        as [->|[->|(order & w & ->)]]; event_absent.
  - unfold on_close. destruct (negb _).
    { intros [= <- <-]. right. split_and!; [done..|in_names|in_names]. }
    destruct answer; intros [= <- <-].
    + right. split_and!; [done..|in_names|in_names].
    + left. split_and!; [done..| |]; rewrite !elem_of_cons, elem_of_nil;
        by intros [?|?].
Qed.

Lemma run_lifetime fuel acts :
  ∀ st st' evs,
  tmpdir_alive st = true → window_alive st = true →
  run fuel acts st = Some (st', evs) →
  (tmpdir_alive st' = true ∧ window_alive st' = true ∧
   (TmpdirCleanup ∉ evs) ∧ (WindowDestroy ∉ evs)) ∨
  (tmpdir_alive st' = false ∧ window_alive st' = false ∧
   (TmpdirCleanup ∈ evs) ∧ (WindowDestroy ∈ evs)).
Proof.
  induction acts as [|a acts IH]; intros st st' evs Ht Hw; simpl.
  - intros [= <- <-]. left. split_and!; [done..| |]; by intros ?%elem_of_nil.
  - rewrite Hw.
    destruct (step fuel a st) as [[st1 evs1]|] eqn:Hs; [|done].
    destruct (step_lifetime _ _ _ _ _ Ht Hw Hs)
      as [(Ht1 & Hw1 & Hc1 & Hd1)|(Ht1 & Hw1 & Hc1 & Hd1)].
    + destruct (run fuel acts st1) as [[st2 evs2]|] eqn:Hr; [|done].
      intros [= <- <-].
      destruct (IH _ _ _ Ht1 Hw1 Hr) as [(? & ? & ? & ?)|(? & ? & ? & ?)];
        [left|right]; rewrite !elem_of_app; split_and!; tauto.
    + rewrite (run_dead _ _ _ Hw1). intros [= <- <-]. right.
      rewrite !elem_of_app. tauto.
Qed.

(** X11.  The temporary directory lives exactly as long as the window: at
    every point of a session both are alive and the session has neither
    cleaned the directory up nor destroyed the window, or both are gone
    and the session has done both. *)
Theorem staging_area_lifetime tar tmp st0 fuel acts st evs :
  init tar tmp = inr st0 →
  run fuel acts st0 = Some (st, evs) →
  tmpdir_alive st = window_alive st ∧
  (window_alive st = true ↔ (TmpdirCleanup ∉ evs)) ∧
  (window_alive st = true ↔ (WindowDestroy ∉ evs)).
Proof.
  intros (_ & _ & _ & _ & _ & _ & Ht & Hw & _)%init_inv Hr.
  destruct (run_lifetime _ _ _ _ _ Ht Hw Hr)
    as [(-> & -> & ? & ?)|(-> & -> & ? & ?)]; split_and!; try done;
    split; try done; intros H; by destruct H.
Qed.

Lemma staging_area_lifetime_witness :
  ∃ st0 st evs, init sample_tar "/tmp/t" = inr st0 ∧
    run 0 [DblClick "d.txt"; Close false; Close true; DblClick "a"] st0
    = Some (st, evs) ∧
    tmpdir_alive st = false ∧ window_alive st = false ∧ (TmpdirCleanup ∈ evs).
Proof.
  destruct (init sample_tar "/tmp/t") as [e|st0] eqn:E; [by vm_compute in E|].
  destruct (run 0 [DblClick "d.txt"; Close false; Close true; DblClick "a"] st0)
    as [[st evs]|] eqn:R;
    [|vm_compute in E; injection E as <-; by vm_compute in R].
  assert (window_alive st = false) as Hw.
  { vm_compute in E. injection E as <-. vm_compute in R. by injection R as <- <-. }
  exists st0, st, evs. split_and!; [done..| |done|].
  - destruct (staging_area_lifetime _ _ _ _ _ _ _ E R) as (-> & _). done.
  - destruct (staging_area_lifetime _ _ _ _ _ _ _ E R) as (_ & Hc & _).
    destruct (decide (TmpdirCleanup ∈ evs)) as [|Hn]; [done|].
    apply Hc in Hn. congruence.
Defined.

(** ** The preview: which names are images, what it touches *)

Lemma lower_length s : String.length (Py.lower s) = String.length s.
Proof. induction s as [|c r IH]; simpl; [done|]. by rewrite IH. Qed.

Lemma substring_whole e : substring 0 (String.length e) e = e.
Proof. induction e as [|c r IH]; simpl; [done|]. by rewrite IH. Qed.

Lemma substring_skip s n e :
  substring (String.length s) n (s +:+ e) = substring 0 n e.
Proof. induction s as [|c r IH]; [done|]. rewrite string_app_cons. apply IH. Qed.

Lemma suffix_app s e : Py.suffix (String.length e) (s +:+ e) = e.
Proof.
  unfold Py.suffix. rewrite string_length_app.
  replace (String.length s + String.length e - String.length e)
    with (String.length s) by lia.
  by rewrite substring_skip, substring_whole.
Qed.

Lemma substring_tail s :
  ∀ k n, String.length s ≤ k + n → ∃ s', s = s' +:+ substring k n s.
Proof.
  induction s as [|c r IH]; intros k n Hlen.
  - exists "". by destruct k, n.
  - simpl in Hlen. destruct k as [|k].
    + destruct n as [|n]; [lia|]. simpl.
      destruct (IH 0 n ltac:(lia)) as (s' & Hs'). exists "".
      assert (substring 0 n r = r) as ->; [|done].
      assert (String.length r ≤ n) as Hrn by lia. clear -Hrn.
      revert n Hrn. induction r as [|c r IHr]; intros n Hrn; [by destruct n|].
      destruct n as [|n]; simpl in *; [lia|]. rewrite IHr; [done|lia].
    + destruct (IH k n ltac:(lia)) as (s' & Hs'). exists (String c s').
      rewrite string_app_cons. simpl. by rewrite <- Hs'.
Qed.

Lemma suffix_decompose n s : ∃ s', s = s' +:+ Py.suffix n s.
Proof. unfold Py.suffix. apply substring_tail. lia. Qed.

(** X12.  A name is taken for an image exactly when it ends, whatever the
    case of its letters, in one of [.png], [.tif], [.jpg], [.jpeg],
    [.tiff], [.webp]; what comes before the ending, even nothing, does not
    matter. *)
Theorem recognised_image_iff_extension selection :
  recognised_image selection = true ↔
  ∃ s e, selection = s +:+ e ∧ Py.lower e ∈ IMAGE_EXTENSIONS.
Proof.
  unfold recognised_image, IMAGE_EXTENSIONS. split.
  - intros [H|H]%orb_true_iff; apply bool_decide_eq_true in H.
    + destruct (suffix_decompose 4 selection) as (s & Hs).
      exists s, (Py.suffix 4 selection). split; [done|].
      rewrite !elem_of_cons in H. rewrite !elem_of_cons. tauto.
    + destruct (suffix_decompose 5 selection) as (s & Hs).
      exists s, (Py.suffix 5 selection). split; [done|].
      rewrite !elem_of_cons in H. rewrite !elem_of_cons. tauto.
  - intros (s & e & -> & He). apply orb_true_iff.
    pose proof (lower_length e) as Hlen.
    pose proof (suffix_app s e) as Hsuf.
    rewrite !elem_of_cons, elem_of_nil in He.
    destruct He as [He|[He|[He|[He|[He|[He|[]]]]]]];
      rewrite He in Hlen; simpl in Hlen; rewrite <- Hlen in Hsuf;
      [left|left|left|right|right|right];
      apply bool_decide_eq_true; rewrite Hsuf, He; in_names.
Qed.

Lemma recognised_image_iff_extension_witness :
  recognised_image "photos/Holiday.JPeG" = true ∧
  recognised_image ".png" = true ∧
  recognised_image "png" = false.
Proof.
  split_and!.
  - apply recognised_image_iff_extension. exists "photos/Holiday", ".JPeG".
    split; [reflexivity|in_names].
  - apply recognised_image_iff_extension. exists "", ".png".
    split; [reflexivity|in_names].
  - reflexivity.
Defined.

(** X13.  A preview never writes to the disk, never opens the viewer and
    never asks or closes: it first sets the canvas to the width that the
    list box leaves and to the height of the window and clears it, and it
    reads a member of the archive exactly when it shows that member as an
    image. *)
Theorem preview_is_read_only selection ww lw wh st :
  let r := click_listbox selection ww lw wh st in
  (∀ e, e ∈ r.2 → outward e = false) ∧
  (∃ rest, r.2 = [CvConfig (ww - lw) wh; CvDeleteAll] ++ rest) ∧
  (∀ m, TarExtractfile m ∈ r.2 ↔ m = selection ∧ r.1 = ImagePreview).
Proof.
  cbv zeta. unfold click_listbox.
  replace (ww - lw - 20 + 20)%Z with (ww - lw)%Z by lia.
  replace (wh - 20 + 20)%Z with wh by lia.
  destruct (Z.min _ _ <=? 50)%Z; simpl;
    [|destruct (decide (selection = PARENT_MARKER)); simpl;
      [|destruct (getmember_isfile (tar_root st) selection) as [[]|]; simpl;
        [destruct (negb _); simpl|..]]];
    (split_and!;
     [ intros ev Hev;
       repeat (apply elem_of_cons in Hev as [->|Hev]; [done|]);
       by apply elem_of_nil in Hev
     | eauto
     | intros m; split;
       [ intros Hm;
         repeat (apply elem_of_cons in Hm as [Hm|Hm];
                 [first [discriminate Hm | by injection Hm as ->]|]);
         by apply elem_of_nil in Hm
       | try (by intros [_ [=]]); intros [-> _]; in_names ] ]).
Qed.

(** ** Extraction: where it stays, what it leaves alone *)

Lemma descendant_step names q p :
  q ∈ names → descendant names q p → descendant names (parent q) p.
Proof.
  intros Hq. induction 1 as [|p Hp _ IH].
  - apply descendant_child; [done|]. apply descendant_self.
  - by apply descendant_child.
Qed.

Lemma descendant_below names s p :
  s ≠ "" → descendant names s p →
  p = s ∨ (p ∈ names ∧ ∃ rest, p = s +:+ String DELIMITER rest).
Proof.
  intros Hs. induction 1 as [|p Hp _ IH]; [by left|]. right. split; [done|].
  assert (DELIMITER ∈ list_ascii_of_string p) as Hsep.
  { destruct (decide (DELIMITER ∈ list_ascii_of_string p)) as [|Hn]; [done|].
    apply parent_no_sep in Hn. rewrite Hn in IH.
    destruct IH as [?|(_ & rest & Hr)]; [done|].
    apply (f_equal String.length) in Hr. rewrite string_length_app in Hr.
    simpl in Hr. lia. }
  apply parent_basename in Hsep.
  destruct IH as [<-|(_ & rest & Hr)]; [eauto|].
  exists (rest +:+ String DELIMITER (basename p)).
  rewrite Hsep at 1. rewrite Hr.
  by rewrite <- string_app_assoc, string_app_cons.
Qed.

Lemma extract_loop_descendants names ch fuel :
  (∀ k p, p ∈ ch k ↔ p ∈ names ∧ parent p = k) →
  ∀ d Q d' evs, agrees d ch →
  extract_loop fuel d Q = Some (d', evs) →
  ∀ p, TarExtract p ∈ evs → ∃ q, q ∈ Q ∧ descendant names q p.
Proof.
  intros Hch. induction fuel as [|fuel IH]; intros d Q d' evs Ha; [done|].
  simpl. destruct Q as [|s Q]; [intros [= <- <-] p ?%elem_of_nil; done|].
  destruct (getitem_agrees d s ch Ha) as [Hg Ha1]. rewrite Hg.
  destruct (extract_loop fuel _ (Q ++ ch s)) as [[d2 evs2]|] eqn:Hl; [|done].
  intros [= <- <-] p [[= ->]|Hp]%elem_of_cons.
  - exists s. split; [apply list_elem_of_here|apply descendant_self].
  - destruct (IH _ _ _ _ Ha1 Hl p Hp) as (q & [Hq|Hq]%elem_of_app & Hd).
    + exists q. split; [by apply list_elem_of_further|done].
    + exists s. split; [apply list_elem_of_here|].
      apply Hch in Hq as [Hq <-]. by apply descendant_step.
Qed.

(** X14.  Extracting a selection other than the empty path extracts
    nothing outside the selection: every path that is extracted is the
    selection itself or a member of the archive whose path is the
    selection, the separator and something more.  This holds for every
    archive, also for one that names a member twice. *)
Theorem extraction_stays_below tar tmp st0 fuel0 acts st evs0 fuel selection st' evs :
  init tar tmp = inr st0 →
  run fuel0 acts st0 = Some (st, evs0) →
  selection ≠ "" →
  extract_selection fuel selection st = Some (st', evs) →
  ∀ p, TarExtract p ∈ evs →
    p = selection ∨
    (p ∈ getnames tar ∧ ∃ rest, p = selection +:+ String DELIMITER rest).
Proof.
  intros Hi Hr Hne Hx p Hp.
  destruct (run_session_inv _ _ _ _ _ _ _ Hi Hr) as ((_ & Ha & _) & _).
  unfold extract_selection in Hx.
  destruct (decide (selection = PARENT_MARKER));
    [injection Hx as <- <-; by apply elem_of_nil in Hp|].
  destruct (getmember_isfile (tar_root st) selection) as [[]|].
  - injection Hx as <- <-. left.
    apply elem_of_cons in Hp as [[= ->]|Hp]; [done|].
    by apply list_elem_of_singleton in Hp.
  - destruct (extract_loop _ _ _) as [[d e']|] eqn:Hl; [|done].
    injection Hx as <- <-.
    apply elem_of_app in Hp as [Hp|Hp];
      [|by apply list_elem_of_singleton in Hp].
    destruct (extract_loop_descendants (getnames tar) _ _
                (elem_of_index_children _) _ _ _ _ Ha Hl p Hp)
      as (q & ->%list_elem_of_singleton & Hd).
    by apply descendant_below.
  - injection Hx as <- <-. by apply list_elem_of_singleton in Hp.
Qed.

Lemma extraction_stays_below_witness :
  ∃ st0 st' evs, init appended_tar "/tmp/t" = inr st0 ∧
    extract_selection 4 "a" st0 = Some (st', evs) ∧
    (TarExtract "a/b" ∈ evs) ∧
    ∀ p, TarExtract p ∈ evs →
      p = "a" ∨
      (p ∈ getnames appended_tar ∧ ∃ rest, p = "a" +:+ String DELIMITER rest).
Proof.
  destruct (init appended_tar "/tmp/t") as [e|st0] eqn:E; [by vm_compute in E|].
  destruct (extract_selection 4 "a" st0) as [[st' evs]|] eqn:X;
    [|vm_compute in E; injection E as <-; by vm_compute in X].
  exists st0, st', evs. split_and!; [done..| |].
  - vm_compute in E. injection E as <-. vm_compute in X.
    injection X as <- <-. in_names.
  - apply (extraction_stays_below appended_tar "/tmp/t" st0 0 [] st0 [] 4 "a"
             st' evs E eq_refl); [discriminate|done].
Defined.

(** X15.  Whatever is selected, an extraction that ends leaves the
    explorer as it was but for keys that the index may have gained: the
    same directory, the same listing, the same flag, the temporary
    directory and the window untouched.  It does nothing, or ends in
    [KeyError], or extracts some paths and then opens the viewer once, as
    the last thing it does. *)
Theorem extraction_leaves_explorer fuel selection st st' evs :
  extract_selection fuel selection st = Some (st', evs) →
  current_path st' = current_path st ∧ listbox st' = listbox st ∧
  opened_at_least_one_tmp st' = opened_at_least_one_tmp st ∧
  tmpdir_alive st' = tmpdir_alive st ∧ window_alive st' = window_alive st ∧
  tar_root st' = tar_root st ∧ tmpdir_name st' = tmpdir_name st ∧
  (∀ k, children (tree_dict st') k = children (tree_dict st) k) ∧
  (evs = [] ∨ evs = [CallbackError KeyError] ∨
   ∃ order where_, evs = (TarExtract <$> order) ++ [SystemViewer where_]).
Proof.
  intros Hx. pose proof (extract_selection_events _ _ _ _ _ Hx) as Hevs.
  destruct (step_keeps fuel (ExtractSelection selection) st st' evs Hx) as [Hc _].
  unfold extract_selection in Hx.
  destruct (decide (selection = PARENT_MARKER)); [by injection Hx as <- _|].
  destruct (getmember_isfile (tar_root st) selection) as [[]|];
    [by injection Hx as <- _| |by injection Hx as <- _].
  destruct (extract_loop _ _ _) as [[d e']|]; [|done].
  injection Hx as <- _. done.
Qed.

Lemma extraction_leaves_explorer_witness :
  ∃ st0 st st' evs, init deep_tar "/tmp/t" = inr st0 ∧
    st = (dbl_click_listbox "a" st0).1 ∧
    extract_selection 3 "a/c" st = Some (st', evs) ∧
    listbox st' = [".."; "a/b"; "a/c"] ∧ current_path st' = "a".
Proof.
  destruct (init deep_tar "/tmp/t") as [e|st0] eqn:E; [by vm_compute in E|].
  destruct (extract_selection 3 "a/c" (dbl_click_listbox "a" st0).1)
    as [[st' evs]|] eqn:X;
    [|vm_compute in E; injection E as <-; by vm_compute in X].
  exists st0, (dbl_click_listbox "a" st0).1, st', evs. split_and!; [done..| |].
  - destruct (extraction_leaves_explorer _ _ _ _ _ X) as (_ & -> & _).
    vm_compute in E. by injection E as <-.
  - destruct (extraction_leaves_explorer _ _ _ _ _ X) as (-> & _).
    vm_compute in E. by injection E as <-.
Defined.

(** ** Into a directory and back, at any depth; where a file is staged *)

(** X16.  At every point of a session, entering a directory that the list
    box shows and then the parent entry leads back to the directory one
    came from, with the listing one had. *)
Theorem enter_then_parent_roundtrip tar tmp st0 fuel acts st evs d :
  init tar tmp = inr st0 →
  run fuel acts st0 = Some (st, evs) →
  d ∈ listbox st →
  d ≠ PARENT_MARKER →
  getmember_isfile tar d = Some false →
  let st1 := (dbl_click_listbox d st).1 in
  current_path st1 = d ∧
  current_path (go_up st1) = current_path st ∧
  listbox (go_up st1) = listbox st.
Proof.
  intros Hi Hr Hd Hne Hdir.
  destruct (run_session_inv _ _ _ _ _ _ _ Hi Hr) as ((Ht & Ha & _ & Hl) & _).
  assert (parent d = current_path st) as Hpar.
  { rewrite Hl in Hd. apply elem_of_app in Hd as [Hd|Hd].
    - destruct (decide (current_path st = ""));
        [by apply elem_of_nil in Hd|by apply list_elem_of_singleton in Hd].
    - by apply elem_of_index_children in Hd as [_ ?]. }
  cbv zeta. rewrite (dbl_click_directory d st) by (by rewrite ?Ht). simpl.
  destruct (enter_directory_frame d st) as (_ & _ & _ & _ & _ & Hc1 & _).
  assert (agrees (tree_dict (enter_directory d st))
            (index_children (getnames tar))) as Ha1.
  { intros k. destruct (enter_directory_keeps d st) as [-> _]. apply Ha. }
  destruct (go_up_inv _ _ Ha1) as [_ Hl2].
  assert (current_path (go_up (enter_directory d st)) = current_path st) as Hc2
    by by rewrite go_up_path, Hc1.
  split_and!; [done..|].
  unfold listing_ok in Hl2. by rewrite Hl2, Hc2, Hl.
Qed.

Lemma enter_then_parent_roundtrip_witness :
  ∃ st0 st evs, init deep_tar "/tmp/t" = inr st0 ∧
    run 0 [DblClick "a"] st0 = Some (st, evs) ∧
    listbox st = [".."; "a/b"; "a/c"] ∧
    listbox (go_up (dbl_click_listbox "a/b" st).1) = listbox st.
Proof.
  destruct (init deep_tar "/tmp/t") as [e|st0] eqn:E; [by vm_compute in E|].
  destruct (run 0 [DblClick "a"] st0) as [[st evs]|] eqn:R;
    [|vm_compute in E; injection E as <-; by vm_compute in R].
  assert (listbox st = [".."; "a/b"; "a/c"]) as Hl.
  { vm_compute in E. injection E as <-. vm_compute in R. by injection R as <- <-. }
  exists st0, st, evs. split_and!; [done..|].
  apply (enter_then_parent_roundtrip deep_tar "/tmp/t" st0 0 _ st evs "a/b" E R).
  - rewrite Hl. in_names.
  - discriminate.
  - reflexivity.
Defined.

(** X17.  A file entered for a quick view is written under its last
    segment alone: the file [f] of any directory [d] goes to the path made
    of the temporary directory, the separator and [f], so that files of
    the same name in different directories are written to the same
    path. *)
Theorem quick_view_staged_name d f st :
  DELIMITER ∉ list_ascii_of_string f →
  getmember_isfile (tar_root st) (d +:+ String DELIMITER f) = Some true →
  let selection := d +:+ String DELIMITER f in
  let filepath := tmpdir_name st +:+ String DELIMITER f in
  (dbl_click_listbox selection st).2
  = [OpenWb filepath; TarExtractfile selection;
     WriteFile filepath selection; SystemViewer filepath].
Proof.
  intros Hf Hfile. cbv zeta.
  destruct (parent_basename_join d f Hf) as [Hpar Hbase].
  unfold dbl_click_listbox. rewrite Hfile, Hbase.
  destruct (decide (d +:+ String DELIMITER f = PARENT_MARKER)) as [Heq|]; [|done].
  rewrite Heq in Hpar, Hbase. vm_compute in Hpar, Hbase. subst d f.
  discriminate Heq.
Qed.

Lemma quick_view_staged_name_witness :
  ∃ st0, init {| members := [("a/x", true); ("b/x", true)] |} "/tmp/t" = inr st0 ∧
    head (dbl_click_listbox "a/x" st0).2 = Some (OpenWb "/tmp/t/x") ∧
    head (dbl_click_listbox "b/x" st0).2 = Some (OpenWb "/tmp/t/x").
Proof.
  destruct (init {| members := [("a/x", true); ("b/x", true)] |} "/tmp/t")
    as [e|st0] eqn:E; [by vm_compute in E|].
  assert (tar_root st0 = {| members := [("a/x", true); ("b/x", true)] |}
          ∧ tmpdir_name st0 = "/tmp/t") as [Ht Hn]
    by (vm_compute in E; by injection E as <-).
  exists st0. split; [done|]. split.
  - change "a/x" with ("a" +:+ String DELIMITER "x").
    rewrite (quick_view_staged_name "a" "x" st0).
    + by rewrite Hn.
    + by apply (bool_decide_unpack (DELIMITER ∉ list_ascii_of_string "x")).
    + by rewrite Ht.
  - change "b/x" with ("b" +:+ String DELIMITER "x").
    rewrite (quick_view_staged_name "b" "x" st0).
    + by rewrite Hn.
    + by apply (bool_decide_unpack (DELIMITER ∉ list_ascii_of_string "x")).
    + by rewrite Ht.
Defined.

Lemma preview_is_read_only_witness :
  ∃ st0, init sample_tar "/tmp/t" = inr st0 ∧
    (TarExtractfile "a/b.png" ∈ (click_listbox "a/b.png" 600 200 400 st0).2) ∧
    (TarExtractfile "a/c.txt" ∉ (click_listbox "a/c.txt" 600 200 400 st0).2).
Proof.
  destruct (init sample_tar "/tmp/t") as [e|st0] eqn:E; [by vm_compute in E|].
  exists st0. split; [done|].
  destruct (preview_is_read_only "a/b.png" 600 200 400 st0) as (_ & _ & Hb).
  destruct (preview_is_read_only "a/c.txt" 600 200 400 st0) as (_ & _ & Hc).
  vm_compute in E. injection E as <-. split.
  - apply Hb. by vm_compute.
  - intros [_ Hm]%Hc. by vm_compute in Hm.
Defined.
